(** * Process Surgeon: the client-side store, view pipeline and dialogs

    A shallow embedding of [process-surgeon/src/store/index.ts] (the Zustand
    store: snapshot, polling, kill / container actions, favourites, history),
    of the filter and sort of [components/ProcessTable.tsx], and of the
    handlers of [components/PortSearchDialog.tsx], [components/ContextMenu.tsx]
    and [components/FavoritesDialog.tsx].

    Conventions.
    - A JavaScript number that the program uses as an integer (pid, port,
      milliseconds, byte counts) is a [Z]; [cpuUsage] is a [Q] (every finite
      double is a rational, and the sign of [a - b] on finite doubles is the
      order of the two rationals).
    - A JavaScript string is a [string]; a character stands for one code unit
      below 256.
    - An [async] store action is run to completion: the answer of the remote
      collaborator ([invoke]) is an argument, [inl e] when the promise rejects
      with the error [e] and [inr r] when it resolves with [r].  Every
      [invoke] is appended to the log [remoteCalls], every [setTimeout] to
      the queue [timers]. *)

From Stdlib Require Import ZArith QArith String Ascii DecimalString.
From Stdlib Require DecimalFacts DecimalPos.
From Stdlib Require Import Lqa Sorted.
From stdpp Require Import base option list gmap strings.

#[local] Set Warnings "-register-all,-clear-no-such-hyp".
#[local] Open Scope Z_scope.
#[local] Open Scope string_scope.

(** ** JavaScript helpers *)

(** [n.toString()] for an integer [n], and the same rendering inside a
    template literal: the decimal digits, as JavaScript prints an integer
    below 10^21 that the number holds exactly (pids, ports, timestamps). *)
Definition toString (n : Z) : string := NilZero.string_of_int (Z.to_int n).

(** [a || b] on strings: the empty string is falsy. *)
Definition str_or (a b : string) : string :=
  match a with EmptyString => b | _ => a end.

(** [a || b] on numbers that are integers: [0] is falsy. *)
Definition num_or (a b : Z) : Z := if Z.eqb a 0 then b else a.

(** [s.substr(start, len)] and [s.slice(0, len)] for non-negative
    arguments. *)
Definition substr (start len : nat) (s : string) : string :=
  String.substring start len s.

Definition slice0 (len : nat) (s : string) : string :=
  String.substring 0 len s.

(** [hay.includes(needle)]. *)
Fixpoint includes (needle hay : string) : bool :=
  String.prefix needle hay
  || match hay with
     | EmptyString => false
     | String _ rest => includes needle rest
     end.

(** [arr.some(f)], [arr.find(f)], [arr.includes(x)] on arrays. *)
Definition some {A} (f : A → bool) (arr : list A) : bool := existsb f arr.

Definition find {A} (f : A → bool) (arr : list A) : option A := List.find f arr.

Definition arr_includes (x : Z) (arr : list Z) : bool :=
  existsb (Z.eqb x) arr.

(** ** types/index.ts *)

Inductive Protocol := tcp | udp.

Inductive SocketState :=
  | LISTENING | ESTABLISHED | SYN_SENT | SYN_RECEIVED | FIN_WAIT_1
  | FIN_WAIT_2 | CLOSE_WAIT | CLOSING | LAST_ACK | TIME_WAIT | CLOSED
  | UNKNOWN.

Inductive ContainerRuntime := docker | podman | containerd | unknown.

Inductive ContainerAction := stop | kill | remove | restart.

#[global] Instance Protocol_eq_dec : EqDecision Protocol.
Proof. solve_decision. Defined.

#[global] Instance SocketState_eq_dec : EqDecision SocketState.
Proof. solve_decision. Defined.

#[global] Instance ContainerAction_eq_dec : EqDecision ContainerAction.
Proof. solve_decision. Defined.

Module PortEntry.
Record t := mk {
  protocol : Protocol;
  localAddress : string;
  localPort : Z;
  remoteAddress : option string;
  remotePort : option Z;
  state : SocketState
}.
End PortEntry.

Module ContainerPort.
Record t := mk {
  hostPort : Z;
  containerPort : Z;
  protocol : Protocol;
  hostIp : option string
}.
End ContainerPort.

Module ContainerInfo.
Record t := mk {
  id : string;
  name : string;
  image : string;
  status : string;
  state : string;
  runtime : ContainerRuntime;
  ports : list ContainerPort.t
}.
End ContainerInfo.

Module ProcessNode.
Record t := mk {
  id : string;
  pid : Z;
  name : string;
  exePath : option string;
  commandLine : option string;
  user : string;
  memoryUsage : Z;
  cpuUsage : Q;
  startTime : option string;
  ports : list PortEntry.t;
  isDockerProxy : bool;
  container : option ContainerInfo.t;
  isProtected : bool
}.
End ProcessNode.

Module AppState.
Record t := mk {
  processes : list ProcessNode.t;
  totalConnections : Z;
  listeningPorts : Z;
  dockerAvailable : bool;
  lastUpdated : string
}.
End AppState.

Module KillResult.
Record t := mk {
  success : bool;
  message : string;
  requiredElevation : bool
}.
End KillResult.

Module AppError.
Record t := mk {
  code : string;
  message : string;
  details : option string
}.
End AppError.

Inductive ProtocolFilter := ProtocolAll | ProtocolIs (p : Protocol).

Inductive StateFilter := StateAll | StateIs (s : SocketState).

Module FilterOptions.
Record t := mk {
  showAllConnections : bool;
  searchQuery : string;
  selectedProtocol : ProtocolFilter;
  selectedState : StateFilter
}.
End FilterOptions.

Inductive SortField :=
  | field_pid | field_name | field_port | field_memory | field_cpu
  | field_user.

Inductive SortDirection := asc | desc.

Module SortOptions.
Record t := mk {
  field : SortField;
  direction : SortDirection
}.
End SortOptions.

(** ** components/HistoryPanel.tsx: the history entry *)

Inductive HistoryAction := act_kill | act_force_kill | act_container_stop | act_container_kill.

(** A [Date] object: built from a backend string ([new Date(s)]) or from the
    clock ([new Date()], in milliseconds). *)
Inductive Date := DateOfString (s : string) | DateOfClock (ms : Z).

Module HistoryEntry.
(** [Omit<HistoryEntry, 'id' | 'timestamp'>], the argument of
    [addHistoryEntry]. *)
Record draft := mkDraft {
  d_action : HistoryAction;
  d_processName : string;
  d_pid : Z;
  d_port : option Z;
  d_success : bool;
  d_message : string
}.

Record t := mk {
  id : string;
  timestamp : Date;
  action : HistoryAction;
  processName : string;
  pid : Z;
  port : option Z;
  success : bool;
  message : string
}.
End HistoryEntry.

(** What [addHistoryEntry] reads from its surroundings: [Date.now()],
    [Math.random().toString(36)] and the clock of [new Date()]. *)
Record Stamp := mkStamp {
  dateNow : Z;
  randomBase36 : string;
  newDate : Z
}.

(** ** store/index.ts: the state *)

Record StoreState := mkStore {
  processes : list ProcessNode.t;
  totalConnections : Z;
  listeningPorts : Z;
  dockerAvailable : bool;
  lastUpdated : option Date;
  isLoading : bool;
  error : option string;
  selectedPid : option Z;
  selectedPids : gset Z;
  filterOptions : FilterOptions.t;
  sortOptions : SortOptions.t;
  favoritePorts : list Z;
  history : list HistoryEntry.t;
  pollingInterval : Z;
  isPolling : bool;
  showDetailsPanel : bool
}.

(** The store as [create] builds it, given the favourites that were loaded. *)
Definition initialStore (favs : list Z) : StoreState :=
  {| processes := [];
     totalConnections := 0;
     listeningPorts := 0;
     dockerAvailable := false;
     lastUpdated := None;
     isLoading := false;
     error := None;
     selectedPid := None;
     selectedPids := ∅;
     filterOptions :=
       FilterOptions.mk false EmptyString ProtocolAll StateAll;
     sortOptions := SortOptions.mk field_port asc;
     favoritePorts := favs;
     history := [];
     pollingInterval := 2000;
     isPolling := false;
     showDetailsPanel := false |}.

(** The partial updates [set({...})] that the actions use. *)
Definition set_loading (l : bool) (e : option string) (s : StoreState) : StoreState :=
  mkStore (processes s) (totalConnections s) (listeningPorts s)
    (dockerAvailable s) (lastUpdated s) l e (selectedPid s) (selectedPids s)
    (filterOptions s) (sortOptions s) (favoritePorts s) (history s)
    (pollingInterval s) (isPolling s) (showDetailsPanel s).

Definition set_snapshot (r : AppState.t) (s : StoreState) : StoreState :=
  mkStore (AppState.processes r) (AppState.totalConnections r)
    (AppState.listeningPorts r) (AppState.dockerAvailable r)
    (Some (DateOfString (AppState.lastUpdated r))) false (error s)
    (selectedPid s) (selectedPids s) (filterOptions s) (sortOptions s)
    (favoritePorts s) (history s) (pollingInterval s) (isPolling s)
    (showDetailsPanel s).

Definition set_favoritePorts (f : list Z) (s : StoreState) : StoreState :=
  mkStore (processes s) (totalConnections s) (listeningPorts s)
    (dockerAvailable s) (lastUpdated s) (isLoading s) (error s)
    (selectedPid s) (selectedPids s) (filterOptions s) (sortOptions s) f
    (history s) (pollingInterval s) (isPolling s) (showDetailsPanel s).

Definition set_history (h : list HistoryEntry.t) (s : StoreState) : StoreState :=
  mkStore (processes s) (totalConnections s) (listeningPorts s)
    (dockerAvailable s) (lastUpdated s) (isLoading s) (error s)
    (selectedPid s) (selectedPids s) (filterOptions s) (sortOptions s)
    (favoritePorts s) h (pollingInterval s) (isPolling s)
    (showDetailsPanel s).

Definition set_pollingInterval (ms : Z) (s : StoreState) : StoreState :=
  mkStore (processes s) (totalConnections s) (listeningPorts s)
    (dockerAvailable s) (lastUpdated s) (isLoading s) (error s)
    (selectedPid s) (selectedPids s) (filterOptions s) (sortOptions s)
    (favoritePorts s) (history s) ms (isPolling s) (showDetailsPanel s).

Definition set_isPolling (b : bool) (s : StoreState) : StoreState :=
  mkStore (processes s) (totalConnections s) (listeningPorts s)
    (dockerAvailable s) (lastUpdated s) (isLoading s) (error s)
    (selectedPid s) (selectedPids s) (filterOptions s) (sortOptions s)
    (favoritePorts s) (history s) (pollingInterval s) b
    (showDetailsPanel s).

(** ** The surroundings of the store *)

(** One [invoke(command, args)]. *)
Inductive RemoteCall :=
  | get_processes (showAllConnections : bool)
  | find_port (port : Z)
  | kill_process (pid : Z) (force : bool)
  | container_action (containerId : string) (action : ContainerAction).

(** The callback of a [setTimeout]: the refresh after an action,
    [() => get().fetchProcesses()], or the closure [poll] of [startPolling],
    which carries the [pollingInterval] that [startPolling] read. *)
Inductive Task := TaskFetch | TaskPoll (captured : Z).

Record Timer := mkTimer { callback : Task; delay : Z }.

Record World := mkWorld {
  store : StoreState;
  localStorage : gmap string string;
  timers : list Timer;
  remoteCalls : list RemoteCall
}.

(** Actions thread the world. *)
Definition Act (A : Type) : Type := World → A * World.

#[global] Instance Act_ret : MRet Act := λ A x w, (x, w).

#[global] Instance Act_bind : MBind Act :=
  λ A B f m w, let '(a, w') := m w in f a w'.

Definition get : Act StoreState := λ w, (store w, w).

Definition set (f : StoreState → StoreState) : Act unit :=
  λ w, (tt, mkWorld (f (store w)) (localStorage w) (timers w) (remoteCalls w)).

Definition setItem (key value : string) : Act unit :=
  λ w, (tt, mkWorld (store w) (<[key := value]> (localStorage w)) (timers w)
              (remoteCalls w)).

Definition setTimeout (cb : Task) (ms : Z) : Act unit :=
  λ w, (tt, mkWorld (store w) (localStorage w) (timers w ++ [mkTimer cb ms])
              (remoteCalls w)).

(** [await invoke(...)]: the call is issued, then the promise settles as the
    collaborator decides. *)
Definition invoke {T} (call : RemoteCall) (reply : AppError.t + T) : Act (AppError.t + T) :=
  λ w, (reply, mkWorld (store w) (localStorage w) (timers w)
                 (remoteCalls w ++ [call])).

Definition exec {A} (m : Act A) (w : World) : World := (m w).2.

Definition eval {A} (m : Act A) (w : World) : A := (m w).1.

(** ** store/index.ts: the actions *)

(** [addHistoryEntry]: the new entry goes first, and [slice(0, 100)] keeps
    the first hundred. *)
Definition makeEntry (st : Stamp) (entry : HistoryEntry.draft) : HistoryEntry.t :=
  {| HistoryEntry.id :=
       toString (dateNow st) ++ "-" ++ substr 2 9 (randomBase36 st);
     HistoryEntry.timestamp := DateOfClock (newDate st);
     HistoryEntry.action := HistoryEntry.d_action entry;
     HistoryEntry.processName := HistoryEntry.d_processName entry;
     HistoryEntry.pid := HistoryEntry.d_pid entry;
     HistoryEntry.port := HistoryEntry.d_port entry;
     HistoryEntry.success := HistoryEntry.d_success entry;
     HistoryEntry.message := HistoryEntry.d_message entry |}.

Definition pushHistory (e : HistoryEntry.t) (h : list HistoryEntry.t) : list HistoryEntry.t :=
  take 100 (e :: h).

Definition addHistoryEntry (st : Stamp) (entry : HistoryEntry.draft) : Act unit :=
  set (λ state, set_history (pushHistory (makeEntry st entry) (history state)) state).

Definition clearHistory : Act unit := set (set_history []).

Definition fetchProcesses (reply : AppError.t + AppState.t) : Act unit :=
  set (set_loading true None);;
  s ← get;
  r ← invoke (get_processes
                (FilterOptions.showAllConnections (filterOptions s))) reply;
  match r with
  | inr result => set (set_snapshot result)
  | inl error =>
      set (λ state, set_loading false
             (Some (str_or (AppError.message error) "Failed to fetch processes"))
             state)
  end.

(** [findPort] rethrows a failure as [new Error(message)]: [inl] carries
    that message. *)
Definition findPort (reply : AppError.t + list ProcessNode.t) (port : Z) : Act (string + list ProcessNode.t) :=
  r ← invoke (find_port port) reply;
  match r with
  | inr result => mret (inr result)
  | inl error => mret (inl (str_or (AppError.message error) "Failed to find port"))
  end.

(** [process?.name || 'Unknown'] and [process?.ports[0]?.localPort]. *)
Definition nameOrUnknown (process : option ProcessNode.t) : string :=
  str_or (from_option ProcessNode.name EmptyString process) "Unknown".

Definition firstLocalPort (process : option ProcessNode.t) : option Z :=
  p ← process; PortEntry.localPort <$> head (ProcessNode.ports p).

Definition killProcess (reply : AppError.t + KillResult.t) (st : Stamp) (pid : Z) (force : bool) : Act KillResult.t :=
  s ← get;
  let process := find (λ p, Z.eqb (ProcessNode.pid p) pid) (processes s) in
  r ← invoke (kill_process pid force) reply;
  match r with
  | inr result =>
      addHistoryEntry st
        {| HistoryEntry.d_action := if force then act_force_kill else act_kill;
           HistoryEntry.d_processName := nameOrUnknown process;
           HistoryEntry.d_pid := pid;
           HistoryEntry.d_port := firstLocalPort process;
           HistoryEntry.d_success := KillResult.success result;
           HistoryEntry.d_message := KillResult.message result |};;
      (if KillResult.success result then setTimeout TaskFetch 500 else mret tt);;
      mret result
  | inl error =>
      let msg := str_or (AppError.message error) "Failed to kill process" in
      addHistoryEntry st
        {| HistoryEntry.d_action := if force then act_force_kill else act_kill;
           HistoryEntry.d_processName := nameOrUnknown process;
           HistoryEntry.d_pid := pid;
           HistoryEntry.d_port := firstLocalPort process;
           HistoryEntry.d_success := false;
           HistoryEntry.d_message := msg |};;
      mret (KillResult.mk false msg false)
  end.

(** [p.container?.id === containerId]. *)
Definition hasContainerId (containerId : string) (p : ProcessNode.t) : bool :=
  match ProcessNode.container p with
  | Some c => String.eqb (ContainerInfo.id c) containerId
  | None => false
  end.

(** [process?.container?.name || containerId.slice(0, 12)]. *)
Definition containerLabel (process : option ProcessNode.t) (containerId : string) : string :=
  str_or
    (from_option ContainerInfo.name EmptyString (p ← process; ProcessNode.container p))
    (slice0 12 containerId).

Definition containerHistoryAction (action : ContainerAction) : HistoryAction :=
  match action with stop => act_container_stop | _ => act_container_kill end.

Definition containerAction (reply : AppError.t + KillResult.t) (st : Stamp) (containerId : string) (action : ContainerAction) : Act KillResult.t :=
  s ← get;
  let process := find (hasContainerId containerId) (processes s) in
  r ← invoke (container_action containerId action) reply;
  match r with
  | inr result =>
      addHistoryEntry st
        {| HistoryEntry.d_action := containerHistoryAction action;
           HistoryEntry.d_processName := containerLabel process containerId;
           HistoryEntry.d_pid := num_or (from_option ProcessNode.pid 0 process) 0;
           HistoryEntry.d_port := firstLocalPort process;
           HistoryEntry.d_success := KillResult.success result;
           HistoryEntry.d_message := KillResult.message result |};;
      (if KillResult.success result then setTimeout TaskFetch 1000 else mret tt);;
      mret result
  | inl error =>
      let msg := str_or (AppError.message error) "Failed to execute container action" in
      addHistoryEntry st
        {| HistoryEntry.d_action := containerHistoryAction action;
           HistoryEntry.d_processName := containerLabel process containerId;
           HistoryEntry.d_pid := num_or (from_option ProcessNode.pid 0 process) 0;
           HistoryEntry.d_port := firstLocalPort process;
           HistoryEntry.d_success := false;
           HistoryEntry.d_message := msg |};;
      mret (KillResult.mk false msg false)
  end.

(** *** Polling *)

(** The closure [poll] of [startPolling]; [captured] is the
    [pollingInterval] that [startPolling] destructured from [get()]. *)
Definition poll (captured : Z) (reply : AppError.t + AppState.t) : Act unit :=
  s ← get;
  if isPolling s
  then fetchProcesses reply;; setTimeout (TaskPoll captured) captured
  else mret tt.

Definition startPolling (reply : AppError.t + AppState.t) : Act unit :=
  s ← get;
  if isPolling s then mret tt
  else set (set_isPolling true);; poll (pollingInterval s) reply.

Definition stopPolling : Act unit := set (set_isPolling false).

Definition setPollingInterval (ms : Z) : Act unit := set (set_pollingInterval ms).

(** A pending timer fires: it leaves the queue and its callback runs. *)
Definition runTask (t : Task) (reply : AppError.t + AppState.t) : Act unit :=
  match t with
  | TaskFetch => fetchProcesses reply
  | TaskPoll captured => poll captured reply
  end.

Definition fireTimer (reply : AppError.t + AppState.t) : Act unit :=
  λ w,
    match timers w with
    | [] => (tt, w)
    | t :: rest =>
        runTask (callback t) reply
          (mkWorld (store w) (localStorage w) rest (remoteCalls w))
    end.

(** ** JSON.stringify and JSON.parse

    [JSON.stringify] on an array of integers, and [JSON.parse] as the JSON
    grammar has it (ECMA-404): a recursive-descent parser that either returns
    the value or reports the [SyntaxError] that [JSON.parse] throws.  The
    parser recurses on a fuel that [JSON_parse] sets from the length of the
    text; running out of it is reported apart from a syntax error.  A number
    is the exact value of its literal; [JSON.parse] rounds that value to a
    double, which is the same number for every safe integer. *)

Definition JSON_stringify (arr : list Z) : string :=
  "[" ++ String.concat "," (map toString arr) ++ "]".

Inductive json :=
  | JNull
  | JBool (b : bool)
  | JNumber (q : Q)
  | JString (units : list N)
  | JArray (items : list json)
  | JObject (members : list (list N * json)).

Inductive parsed (A : Type) :=
  | Parsed (v : A) (rest : string)
  | SyntaxError
  | OutOfFuel.

Arguments Parsed {A} v rest.
Arguments SyntaxError {A}.
Arguments OutOfFuel {A}.

Definition parsed_map {A B} (f : A → B) (p : parsed A) : parsed B :=
  match p with
  | Parsed v rest => Parsed (f v) rest
  | SyntaxError => SyntaxError
  | OutOfFuel => OutOfFuel
  end.

Definition code (c : ascii) : N := N_of_ascii c.

(** JSON whitespace: tab, line feed, carriage return, space. *)
Definition is_ws (c : ascii) : bool :=
  let n := code c in
  (N.eqb n 9 || N.eqb n 10 || N.eqb n 13 || N.eqb n 32)%bool.

Fixpoint skip_ws (s : string) : string :=
  match s with
  | String c r => if is_ws c then skip_ws r else s
  | EmptyString => s
  end.

Definition digit (c : ascii) : option Z :=
  let n := Z.of_N (code c) in
  if (Z.leb 48 n && Z.leb n 57)%bool then Some (n - 48) else None.

Definition hexdigit (c : ascii) : option N :=
  let n := code c in
  if (N.leb 48 n && N.leb n 57)%bool then Some (n - 48)%N
  else if (N.leb 65 n && N.leb n 70)%bool then Some (n - 55)%N
  else if (N.leb 97 n && N.leb n 102)%bool then Some (n - 87)%N
  else None.

(** The longest run of decimal digits: its value on top of [acc], how many
    digits were read, and what follows. *)
Fixpoint digits (acc : Z) (count : nat) (s : string) : Z * nat * string :=
  match s with
  | String c r =>
      match digit c with
      | Some d => digits (10 * acc + d) (S count) r
      | None => (acc, count, s)
      end
  | EmptyString => (acc, count, s)
  end.

(** [m * 10^(e - k)], negated when [neg]. *)
Definition number_value (neg : bool) (m : Z) (k : nat) (e : Z) : Q :=
  let x := e - Z.of_nat k in
  let q := if Z.leb 0 x then inject_Z (m * 10 ^ x)
           else Qmake m (Z.to_pos (10 ^ (- x))) in
  if neg then Qopp q else q.

Definition strip_sign (s : string) : bool * string :=
  match s with
  | String c r => if N.eqb (code c) 45 then (true, r) else (false, s)
  | EmptyString => (false, s)
  end.

Definition parse_fraction (ip : Z) (s : string) : option (Z * nat * string) :=
  match s with
  | String c r =>
      if N.eqb (code c) 46
      then match digits ip 0 r with
           | (_, O, _) => None
           | res => Some res
           end
      else Some (ip, O, s)
  | EmptyString => Some (ip, O, s)
  end.

Definition parse_exponent (s : string) : option (Z * string) :=
  match s with
  | String c r =>
      if (N.eqb (code c) 101 || N.eqb (code c) 69)%bool
      then
        let '(eneg, r1) :=
          match r with
          | String c1 r' =>
              if N.eqb (code c1) 45 then (true, r')
              else if N.eqb (code c1) 43 then (false, r')
              else (false, r)
          | EmptyString => (false, r)
          end in
        match digits 0 0 r1 with
        | (_, O, _) => None
        | (v, _, r2) => Some (if eneg then - v else v, r2)
        end
      else Some (0, s)
  | EmptyString => Some (0, s)
  end.

Definition parse_number (s : string) : parsed Q :=
  let '(neg, s1) := strip_sign s in
  match s1 with
  | EmptyString => SyntaxError
  | String c r =>
      match digit c with
      | None => SyntaxError
      | Some d =>
          let '(ip, s2) :=
            if Z.eqb d 0 then (0, r)
            else let '(v, _, r') := digits d 1 r in (v, r') in
          match parse_fraction ip s2 with
          | None => SyntaxError
          | Some (m, k, s3) =>
              match parse_exponent s3 with
              | None => SyntaxError
              | Some (e, s4) => Parsed (number_value neg m k e) s4
              end
          end
      end
  end.

(** The body of a string, after the opening quote (code 34); a backslash is
    code 92. *)
Fixpoint parse_string_body (s : string) (acc : list N) : parsed (list N) :=
  match s with
  | EmptyString => SyntaxError
  | String c r =>
      let n := code c in
      if N.eqb n 34 then Parsed (rev acc) r
      else if N.eqb n 92 then
        match r with
        | EmptyString => SyntaxError
        | String e r' =>
            let m := code e in
            if N.eqb m 34 then parse_string_body r' (34%N :: acc)
            else if N.eqb m 92 then parse_string_body r' (92%N :: acc)
            else if N.eqb m 47 then parse_string_body r' (47%N :: acc)
            else if N.eqb m 98 then parse_string_body r' (8%N :: acc)
            else if N.eqb m 102 then parse_string_body r' (12%N :: acc)
            else if N.eqb m 110 then parse_string_body r' (10%N :: acc)
            else if N.eqb m 114 then parse_string_body r' (13%N :: acc)
            else if N.eqb m 116 then parse_string_body r' (9%N :: acc)
            else if N.eqb m 117 then
              match r' with
              | String h1 (String h2 (String h3 (String h4 r''))) =>
                  match hexdigit h1, hexdigit h2, hexdigit h3, hexdigit h4 with
                  | Some a, Some b, Some c', Some d =>
                      parse_string_body r''
                        ((((a * 16 + b) * 16 + c') * 16 + d)%N :: acc)
                  | _, _, _, _ => SyntaxError
                  end
              | _ => SyntaxError
              end
            else SyntaxError
        end
      else if N.ltb n 32 then SyntaxError
      else parse_string_body r (n :: acc)
  end.

(** [strip_prefix p s]: what follows [p] in [s], when [s] starts with [p]. *)
Fixpoint strip_prefix (p s : string) : option string :=
  match p, s with
  | EmptyString, _ => Some s
  | String a p', String b s' => if Ascii.eqb a b then strip_prefix p' s' else None
  | String _ _, EmptyString => None
  end.

Definition parse_literal (word : string) (v : json) (s : string) : parsed json :=
  match strip_prefix word s with
  | Some rest => Parsed v rest
  | None => SyntaxError
  end.

Fixpoint parse_value (fuel : nat) (s : string) : parsed json :=
  match fuel with
  | O => OutOfFuel
  | S fuel =>
      match skip_ws s with
      | EmptyString => SyntaxError
      | String c r as s0 =>
          let n := code c in
          if N.eqb n 91 then
            match skip_ws r with
            | String c1 r1 =>
                if N.eqb (code c1) 93 then Parsed (JArray []) r1
                else parse_elements fuel r []
            | EmptyString => SyntaxError
            end
          else if N.eqb n 123 then
            match skip_ws r with
            | String c1 r1 =>
                if N.eqb (code c1) 125 then Parsed (JObject []) r1
                else parse_members fuel r []
            | EmptyString => SyntaxError
            end
          else if N.eqb n 34 then parsed_map JString (parse_string_body r [])
          else if N.eqb n 116 then parse_literal "true" (JBool true) s0
          else if N.eqb n 102 then parse_literal "false" (JBool false) s0
          else if N.eqb n 110 then parse_literal "null" JNull s0
          else parsed_map JNumber (parse_number s0)
      end
  end
with parse_elements (fuel : nat) (s : string) (acc : list json) : parsed json :=
  match fuel with
  | O => OutOfFuel
  | S fuel =>
      match parse_value fuel s with
      | Parsed v r =>
          match skip_ws r with
          | String c r' =>
              if N.eqb (code c) 44 then parse_elements fuel r' (v :: acc)
              else if N.eqb (code c) 93 then Parsed (JArray (rev (v :: acc))) r'
              else SyntaxError
          | EmptyString => SyntaxError
          end
      | SyntaxError => SyntaxError
      | OutOfFuel => OutOfFuel
      end
  end
with parse_members (fuel : nat) (s : string) (acc : list (list N * json)) : parsed json :=
  match fuel with
  | O => OutOfFuel
  | S fuel =>
      match skip_ws s with
      | String q r =>
          if N.eqb (code q) 34 then
            match parse_string_body r [] with
            | Parsed key r1 =>
                match skip_ws r1 with
                | String colon r2 =>
                    if N.eqb (code colon) 58 then
                      match parse_value fuel r2 with
                      | Parsed v r3 =>
                          match skip_ws r3 with
                          | String c r4 =>
                              if N.eqb (code c) 44
                              then parse_members fuel r4 ((key, v) :: acc)
                              else if N.eqb (code c) 125
                              then Parsed (JObject (rev ((key, v) :: acc))) r4
                              else SyntaxError
                          | EmptyString => SyntaxError
                          end
                      | SyntaxError => SyntaxError
                      | OutOfFuel => OutOfFuel
                      end
                    else SyntaxError
                | EmptyString => SyntaxError
                end
            | SyntaxError => SyntaxError
            | OutOfFuel => OutOfFuel
            end
          else SyntaxError
      | EmptyString => SyntaxError
      end
  end.

(** The outcome of a JavaScript expression that may throw. *)
Inductive completion (A : Type) :=
  | Normal (v : A)
  | Throw (name : string)
  | Diverges.

Arguments Normal {A} v.
Arguments Throw {A} name.
Arguments Diverges {A}.

Definition JSON_parse (text : string) : completion json :=
  match parse_value (2 * String.length text + 2) text with
  | Parsed v rest =>
      match skip_ws rest with
      | EmptyString => Normal v
      | String _ _ => Throw "SyntaxError"
      end
  | SyntaxError => Throw "SyntaxError"
  | OutOfFuel => Diverges
  end.

(** ** store/index.ts: favourites *)

(** [localStorage.getItem('favoritePorts') || '[]']: a missing key gives
    [null], and [null] and the empty string are both falsy. *)
Definition storedFavorites (ls : gmap string string) : string :=
  str_or (default EmptyString (ls !! "favoritePorts")) "[]".

(** The initial value of [favoritePorts], as the store creator evaluates
    it. *)
Definition loadFavoritePorts (ls : gmap string string) : completion json :=
  JSON_parse (storedFavorites ls).

(** A JSON number that is an integer, and a JSON value that is an array of
    such numbers: the values that fit [favoritePorts : list Z]. *)
Definition asInteger (v : json) : option Z :=
  match v with
  | JNumber q =>
      let r := Qred q in
      if Pos.eqb (Qden r) 1 then Some (Qnum r) else None
  | _ => None
  end.

Definition asPorts (v : json) : option (list Z) :=
  match v with
  | JArray items => mapM asInteger items
  | _ => None
  end.

(** Creating the store.  [Normal (inl s)]: the store [s].  [Normal (inr v)]:
    a store whose [favoritePorts] holds the JSON value [v], which is not an
    array of integers.  [Throw]: the creator threw, there is no store. *)
Definition createStore (ls : gmap string string) : completion (StoreState + json) :=
  match loadFavoritePorts ls with
  | Normal v =>
      match asPorts v with
      | Some favs => Normal (inl (initialStore favs))
      | None => Normal (inr v)
      end
  | Throw name => Throw name
  | Diverges => Diverges
  end.

Definition addFavoritePort (port : Z) : Act unit :=
  state ← get;
  let newFavorites := (favoritePorts state ++ [port])%list in
  setItem "favoritePorts" (JSON_stringify newFavorites);;
  set (set_favoritePorts newFavorites).

Definition removeFavoritePort (port : Z) : Act unit :=
  state ← get;
  let newFavorites := List.filter (λ p, negb (Z.eqb p port)) (favoritePorts state) in
  setItem "favoritePorts" (JSON_stringify newFavorites);;
  set (set_favoritePorts newFavorites).

Definition toggleFavoritePort (port : Z) : Act unit :=
  s ← get;
  if arr_includes port (favoritePorts s)
  then removeFavoritePort port
  else addFavoritePort port.

(** ** components/FavoritesDialog.tsx *)

(** JavaScript white space among the code units below 256. *)
Definition is_js_ws (c : ascii) : bool :=
  let n := code c in
  (N.leb 9 n && N.leb n 13 || N.eqb n 32 || N.eqb n 160)%bool.

Fixpoint skip_js_ws (s : string) : string :=
  match s with
  | String c r => if is_js_ws c then skip_js_ws r else s
  | EmptyString => s
  end.

(** [parseInt(s, 10)]; [None] is [NaN]. *)
Definition parseInt (s : string) : option Z :=
  let s1 := skip_js_ws s in
  let '(neg, s2) :=
    match s1 with
    | String c r =>
        if N.eqb (code c) 45 then (true, r)
        else if N.eqb (code c) 43 then (false, r)
        else (false, s1)
    | EmptyString => (false, s1)
    end in
  match digits 0 0 s2 with
  | (_, O, _) => None
  | (v, _, _) => Some (if neg then - v else v)
  end.

Module FavoritesDialog.
(** [handleAddCustom]; [favorites] is the prop, the store's
    [favoritePorts].  A comparison with [NaN] is false. *)
Definition handleAddCustom (customPort : string) : Act unit :=
  s ← get;
  match parseInt customPort with
  | Some port =>
      if (Z.leb 1 port && Z.leb port 65535
          && negb (arr_includes port (favoritePorts s)))%bool
      then addFavoritePort port
      else mret tt
  | None => mret tt
  end.

End FavoritesDialog.

(** ** components/PortSearchDialog.tsx *)

Module PortSearchDialog.
Record state := mk {
  port : string;
  results : list ProcessNode.t;
  isSearching : bool;
  error : option string
}.

Definition invalidPort : string :=
  "Please enter a valid port number (1-65535)".

Definition handleSearch (reply : AppError.t + list ProcessNode.t) (d : state) : Act state :=
  match parseInt (port d) with
  | None => mret (mk (port d) (results d) (isSearching d) (Some invalidPort))
  | Some portNum =>
      if (Z.ltb portNum 1 || Z.gtb portNum 65535)%bool
      then mret (mk (port d) (results d) (isSearching d) (Some invalidPort))
      else
        r ← findPort reply portNum;
        match r with
        | inr found =>
            mret (mk (port d) found false
                    (match found with
                     | [] => Some ("No processes found using port "
                                   ++ toString portNum)
                     | _ => None
                     end))
        | inl message => mret (mk (port d) (results d) false (Some message))
        end
  end.
End PortSearchDialog.

(** ** store/index.ts: selection *)

Definition set_selectedPid (pid : option Z) (s : StoreState) : StoreState :=
  mkStore (processes s) (totalConnections s) (listeningPorts s)
    (dockerAvailable s) (lastUpdated s) (isLoading s) (error s) pid
    (selectedPids s) (filterOptions s) (sortOptions s) (favoritePorts s)
    (history s) (pollingInterval s) (isPolling s) (showDetailsPanel s).

Definition set_selectedPids (pids : gset Z) (s : StoreState) : StoreState :=
  mkStore (processes s) (totalConnections s) (listeningPorts s)
    (dockerAvailable s) (lastUpdated s) (isLoading s) (error s)
    (selectedPid s) pids (filterOptions s) (sortOptions s) (favoritePorts s)
    (history s) (pollingInterval s) (isPolling s) (showDetailsPanel s).

Definition setSelectedPid (pid : option Z) : Act unit := set (set_selectedPid pid).

(** [new Set(state.selectedPids)], then [delete] or [add]. *)
Definition toggleSelectedPid (pid : Z) : Act unit :=
  set (λ state,
         let newSelected := selectedPids state in
         set_selectedPids
           (if decide (pid ∈ newSelected)
            then newSelected ∖ {[pid]}
            else newSelected ∪ {[pid]})
           state).

Definition selectAllPids : Act unit :=
  set (λ state,
         set_selectedPids (list_to_set (map ProcessNode.pid (processes state)))
           state).

Definition clearSelectedPids : Act unit := set (set_selectedPids ∅).

(** ** components/ContextMenu.tsx: the group [actions] *)

Module ContextMenu.
Record MenuItem := mkItem {
  label : string;
  onKill_force : bool;
  disabled : bool
}.

(** The two items of the group [actions]; the action of each is
    [onKill(force); onClose()]. *)
Definition actions (process : ProcessNode.t) : list MenuItem :=
  [ mkItem "Graceful Stop (SIGTERM)" false (ProcessNode.isProtected process);
    mkItem "Force Kill (SIGKILL)" true (ProcessNode.isProtected process) ].

(** A click on the [button] of an item: a disabled button fires no
    [onClick].  [onKill] is the [handleKill] of the process row,
    [killProcess(process.pid, force)].  The menu is rendered inside the row
    and its buttons do not stop the event, so the click goes on to the
    [onClick] of the row, [setSelectedPid(isSelected ? null : process.pid)];
    [isSelected] is [selectedPid === process.pid] as the row was
    rendered. *)
Definition click (reply : AppError.t + KillResult.t) (st : Stamp) (process : ProcessNode.t) (item : MenuItem) : Act (option KillResult.t) :=
  if disabled item then mret None
  else
    s ← get;
    let isSelected :=
      match selectedPid s with
      | Some pid => Z.eqb pid (ProcessNode.pid process)
      | None => false
      end in
    result ← killProcess reply st (ProcessNode.pid process) (onKill_force item);
    setSelectedPid (if isSelected then None else Some (ProcessNode.pid process));;
    mret (Some result).
End ContextMenu.

(** ** components/ProcessTable.tsx: filter and sort *)

(** [Array.prototype.sort(cmp)] is stable; for a comparator that is
    consistent, every stable sort returns the same array, the one that the
    insertion below builds: an element goes before the first element that it
    does not come after. *)
Fixpoint sort_insert {A} (cmp : A → A → Q) (x : A) (sorted : list A) : list A :=
  match sorted with
  | [] => [x]
  | y :: rest =>
      if Qle_bool (cmp x y) 0 then x :: sorted
      else y :: sort_insert cmp x rest
  end.

Definition array_sort {A} (cmp : A → A → Q) (arr : list A) : list A :=
  foldr (sort_insert cmp) [] arr.

Section ProcessTable.
(** [String.prototype.toLowerCase] and [String.prototype.localeCompare]
    belong to the platform (the second depends on the locale); the
    pipeline is defined for any such pair. *)
Variable toLowerCase : string → string.
Variable localeCompare : string → string → Z.

Definition matchesQuery (query : string) (p : ProcessNode.t) : bool :=
  (includes query (toLowerCase (ProcessNode.name p))
   || includes query (toString (ProcessNode.pid p))
   || includes query (toLowerCase (ProcessNode.user p))
   || from_option (λ c, includes query (toLowerCase c)) false
        (ProcessNode.commandLine p)
   || from_option (λ c, includes query (toLowerCase (ContainerInfo.name c)))
        false (ProcessNode.container p)
   || some (λ port, includes query (toString (PortEntry.localPort port)))
        (ProcessNode.ports p))%bool.

Definition filteredProcesses (processes : list ProcessNode.t) (filterOptions : FilterOptions.t) : list ProcessNode.t :=
  let result := processes in
  let result :=
    match FilterOptions.searchQuery filterOptions with
    | EmptyString => result
    | searchQuery =>
        let query := toLowerCase searchQuery in
        List.filter (matchesQuery query) result
    end in
  let result :=
    match FilterOptions.selectedProtocol filterOptions with
    | ProtocolAll => result
    | ProtocolIs proto =>
        List.filter
          (λ p, some (λ port, bool_decide (PortEntry.protocol port = proto))
                  (ProcessNode.ports p)) result
    end in
  match FilterOptions.selectedState filterOptions with
  | StateAll => result
  | StateIs st =>
      List.filter
        (λ p, some (λ port, bool_decide (PortEntry.state port = st))
                (ProcessNode.ports p)) result
  end.

Definition hasFavoritePort (favoritePorts : list Z) (p : ProcessNode.t) : bool :=
  some (λ port, arr_includes (PortEntry.localPort port) favoritePorts)
    (ProcessNode.ports p).

(** [a.ports[0]?.localPort ?? 0]. *)
Definition firstPortOrZero (p : ProcessNode.t) : Z :=
  from_option PortEntry.localPort 0 (head (ProcessNode.ports p)).

Definition comparison (field : SortField) (a b : ProcessNode.t) : Q :=
  match field with
  | field_pid => inject_Z (ProcessNode.pid a - ProcessNode.pid b)
  | field_name =>
      inject_Z (localeCompare (ProcessNode.name a) (ProcessNode.name b))
  | field_port => inject_Z (firstPortOrZero a - firstPortOrZero b)
  | field_memory =>
      inject_Z (ProcessNode.memoryUsage a - ProcessNode.memoryUsage b)
  | field_cpu => (ProcessNode.cpuUsage a - ProcessNode.cpuUsage b)%Q
  | field_user =>
      inject_Z (localeCompare (ProcessNode.user a) (ProcessNode.user b))
  end.

(** The comparator handed to [sorted.sort]. *)
Definition compareProcesses (favoritePorts : list Z) (sortOptions : SortOptions.t) (a b : ProcessNode.t) : Q :=
  let aFav := hasFavoritePort favoritePorts a in
  let bFav := hasFavoritePort favoritePorts b in
  if negb (Bool.eqb aFav bFav) then (if aFav then (-1)%Q else 1%Q)
  else
    let c := comparison (SortOptions.field sortOptions) a b in
    match SortOptions.direction sortOptions with
    | asc => c
    | desc => Qopp c
    end.

Definition sortedProcesses (processes : list ProcessNode.t) (filterOptions : FilterOptions.t) (sortOptions : SortOptions.t) (favoritePorts : list Z) : list ProcessNode.t :=
  array_sort (compareProcesses favoritePorts sortOptions)
    (filteredProcesses processes filterOptions).
End ProcessTable.

(** ** Sample data *)

Definition sampleStamp : Stamp := mkStamp 1700000000000 "0.4fzyo82mvyr" 1700000000000.

Definition portOf (proto : Protocol) (n : Z) : PortEntry.t :=
  PortEntry.mk proto "127.0.0.1" n None None LISTENING.

Definition processOf (pid : Z) (name : string) (ports : list PortEntry.t) (protected : bool) : ProcessNode.t :=
  ProcessNode.mk ("proc-" ++ toString pid) pid name None None "root" 4096 0%Q
    None ports false None protected.

(** A protected system process and two ordinary ones. *)
Definition launchd : ProcessNode.t := processOf 1 "launchd" [portOf tcp 22] true.

Definition devServer : ProcessNode.t := processOf 100 "node" [portOf tcp 3000] false.

Definition sshd : ProcessNode.t := processOf 200 "sshd" [portOf tcp 22] false.

Definition worldOf (s : StoreState) : World := mkWorld s ∅ [] [].

Definition withProcesses (ps : list ProcessNode.t) (s : StoreState) : StoreState :=
  set_snapshot (AppState.mk ps 0 0 false "2025-11-30T00:00:00Z") s.

Definition sampleWorld : World :=
  worldOf (withProcesses [launchd; devServer; sshd] (initialStore [3000])).

Definition denied : AppError.t := AppError.mk "PERMISSION_DENIED" "Permission denied" None.

(** A sequence of [addHistoryEntry] calls, in call order. *)
Fixpoint addHistoryEntries (calls : list (Stamp * HistoryEntry.draft)) : Act unit :=
  match calls with
  | [] => mret tt
  | (st, entry) :: rest => addHistoryEntry st entry;; addHistoryEntries rest
  end.

(** The entry that [killProcess] hands to [addHistoryEntry], on both paths
    of its [try]. *)
Definition killDraft (process : option ProcessNode.t) (pid : Z) (force : bool) (reply : AppError.t + KillResult.t) : HistoryEntry.draft :=
  HistoryEntry.mkDraft
    (if force then act_force_kill else act_kill)
    (nameOrUnknown process) pid (firstLocalPort process)
    (match reply with inr r => KillResult.success r | inl _ => false end)
    (match reply with
     | inr r => KillResult.message r
     | inl e => str_or (AppError.message e) "Failed to kill process"
     end).

Definition containerDraft (process : option ProcessNode.t) (containerId : string) (action : ContainerAction) (reply : AppError.t + KillResult.t) : HistoryEntry.draft :=
  HistoryEntry.mkDraft
    (containerHistoryAction action)
    (containerLabel process containerId)
    (num_or (from_option ProcessNode.pid 0 process) 0)
    (firstLocalPort process)
    (match reply with inr r => KillResult.success r | inl _ => false end)
    (match reply with
     | inr r => KillResult.message r
     | inl e => str_or (AppError.message e) "Failed to execute container action"
     end).

(** A full log: entries 99, 98, ..., 1 and, last, the oldest entry 0. *)
Definition sampleDraft (pid : Z) : HistoryEntry.draft :=
  HistoryEntry.mkDraft act_kill "node" pid (Some 3000) true "Process terminated".

Definition entryNo (n : nat) : HistoryEntry.t :=
  makeEntry (mkStamp (Z.of_nat n) "0.4fzyo82mvyr" (Z.of_nat n))
    (sampleDraft (Z.of_nat n)).

Definition recentEntries : list HistoryEntry.t := map entryNo (rev (seq 1 99)).

Definition fullWorld : World :=
  worldOf (set_history (recentEntries ++ [entryNo 0]) (initialStore [])).

Definition sampleCalls : list (Stamp * HistoryEntry.draft) :=
  [(sampleStamp, sampleDraft 100); (sampleStamp, sampleDraft 200)].

(** A world in which polling is on. *)
Definition pollingWorld : World :=
  worldOf (set_isPolling true (store sampleWorld)).

Definition freshSnapshot : AppState.t :=
  AppState.mk [devServer] 1 1 true "2025-11-30T00:00:02Z".

(** Local storage after an interrupted write, with a text that is not
    JSON, and with JSON that is not an array. *)
Definition truncatedStorage : gmap string string := {[ "favoritePorts" := "[3000," ]}.

Definition garbledStorage : gmap string string := {[ "favoritePorts" := "not json" ]}.

Definition objectStorage : gmap string string := {[ "favoritePorts" := "{}" ]}.

Definition emptyTextStorage : gmap string string := {[ "favoritePorts" := EmptyString ]}.

Definition terminated : KillResult.t := KillResult.mk true "Process terminated" false.

Definition searchFor (text : string) : PortSearchDialog.state :=
  PortSearchDialog.mk text [] false None.

(** A stand-in platform for concrete runs: lower case on the ASCII letters,
    comparison by code units. *)
Definition asciiLower (c : ascii) : ascii :=
  let n := code c in
  if (N.leb 65 n && N.leb n 90)%bool then ascii_of_N (n + 32) else c.

Fixpoint lowerCase (s : string) : string :=
  match s with
  | EmptyString => EmptyString
  | String c r => String (asciiLower c) (lowerCase r)
  end.

Definition codeUnitCompare (a b : string) : Z :=
  match String.compare a b with
  | Lt => -1
  | Eq => 0
  | Gt => 1
  end.

Definition noFilter : FilterOptions.t :=
  FilterOptions.mk false EmptyString ProtocolAll StateAll.

(** Favourites pinned to the top of a sequence: once an element is not a
    favourite, none after it is. *)
Fixpoint pinned {A} (fav : A → bool) (l : list A) : Prop :=
  match l with
  | [] => True
  | x :: rest =>
      (fav x = false → Forall (λ y, fav y = false) rest) ∧ pinned fav rest
  end.

(** What [Array.prototype.sort] promises of its result for a consistent
    comparator, whichever algorithm the engine runs: no element comes after
    one that it compares before. *)
Definition orderedBy {A} (cmp : A → A → Q) (l : list A) : Prop :=
  ∀ i j a b, (i < j)%nat → l !! i = Some a → l !! j = Some b → (cmp a b <= 0)%Q.

(** ** App.tsx and ProcessRow.tsx: the handlers around the store actions

    [alert(message)] is the value of the handler: [Some message] when an
    alert is shown. *)

Module App.
(** [handleKillFromPanel(force)], which the details panel and the shortcut
    [onKillSelected] call; [if (selectedPid)] is false for [null] and for
    [0]. *)
Definition handleKillFromPanel (reply : AppError.t + KillResult.t) (st : Stamp) (force : bool) : Act (option string) :=
  s ← get;
  match selectedPid s with
  | None => mret None
  | Some pid =>
      if Z.eqb pid 0 then mret None
      else
        result ← killProcess reply st pid force;
        if KillResult.success result
        then setSelectedPid None;; mret None
        else mret (Some (KillResult.message result))
  end.

(** The callback of the kill shortcut:
    [if (selectedPid) handleKillFromPanel(false)]. *)
Definition onKillSelected (reply : AppError.t + KillResult.t) (st : Stamp) : Act (option string) :=
  s ← get;
  match selectedPid s with
  | None => mret None
  | Some pid =>
      if Z.eqb pid 0 then mret None else handleKillFromPanel reply st false
  end.
End App.

Module ProcessRow.
Definition handleKill (reply : AppError.t + KillResult.t) (st : Stamp) (process : ProcessNode.t) (force : bool) : Act (option string) :=
  result ← killProcess reply st (ProcessNode.pid process) force;
  mret (if KillResult.success result then None
        else Some (KillResult.message result)).

Definition handleContainerAction (reply : AppError.t + KillResult.t) (st : Stamp) (process : ProcessNode.t) (action : ContainerAction) : Act (option string) :=
  match ProcessNode.container process with
  | None => mret None
  | Some c =>
      result ← containerAction reply st (ContainerInfo.id c) action;
      mret (if KillResult.success result then None
            else Some (KillResult.message result))
  end.

(** [firstPort = process.ports[0]]; [if (firstPort) toggleFavoritePort(...)]. *)
Definition handleToggleFavorite (process : ProcessNode.t) : Act unit :=
  match head (ProcessNode.ports process) with
  | Some firstPort => toggleFavoritePort (PortEntry.localPort firstPort)
  | None => mret tt
  end.
End ProcessRow.

(** ** hooks/useKeyboardShortcuts: the key handler *)

Module Keyboard.
(** What [handleKeyDown] reads of the event and of its target. *)
Record KeyboardEvent := mkEvent {
  key : string;
  metaKey : bool;
  ctrlKey : bool;
  tagName : string;
  isContentEditable : bool
}.

(** The callback that the handler calls. *)
Inductive Shortcut :=
  | onEscape | onKillSelected | onFocusSearch | onRefresh | onSelectAll
  | onExport | onToggleDetails | onPortSearch.

Definition isInput (e : KeyboardEvent) : bool :=
  (String.eqb (tagName e) "INPUT" || String.eqb (tagName e) "TEXTAREA"
   || isContentEditable e)%bool.

(** [isMac] is [navigator.platform.toUpperCase().indexOf('MAC') >= 0]. *)
Definition handleKeyDown (isMac : bool) (e : KeyboardEvent) : option Shortcut :=
  if String.eqb (key e) "Escape" then Some onEscape
  else if (isInput e && negb (metaKey e) && negb (ctrlKey e))%bool then None
  else
    let cmdKey := if isMac then metaKey e else ctrlKey e in
    if (cmdKey && String.eqb (key e) "k")%bool then Some onKillSelected
    else if (cmdKey && String.eqb (key e) "f")%bool then Some onFocusSearch
    else if (cmdKey && String.eqb (key e) "r")%bool then Some onRefresh
    else if (cmdKey && String.eqb (key e) "a" && negb (isInput e))%bool
    then Some onSelectAll
    else if (cmdKey && String.eqb (key e) "e")%bool then Some onExport
    else if (cmdKey && (String.eqb (key e) "i" || String.eqb (key e) "d"))%bool
    then Some onToggleDetails
    else if (String.eqb (key e) "/" && negb (isInput e))%bool
    then Some onPortSearch
    else if (String.eqb (key e) "p" && negb (isInput e) && negb cmdKey)%bool
    then Some onPortSearch
    else None.
End Keyboard.

(** ** Helpers of the statements *)

(** The value that the decimal digits of [d] add to [acc]. *)
Fixpoint uint_acc (d : Decimal.uint) (acc : Z) : Z :=
  match d with
  | Decimal.Nil => acc
  | Decimal.D0 d => uint_acc d (10 * acc)
  | Decimal.D1 d => uint_acc d (10 * acc + 1)
  | Decimal.D2 d => uint_acc d (10 * acc + 2)
  | Decimal.D3 d => uint_acc d (10 * acc + 3)
  | Decimal.D4 d => uint_acc d (10 * acc + 4)
  | Decimal.D5 d => uint_acc d (10 * acc + 5)
  | Decimal.D6 d => uint_acc d (10 * acc + 6)
  | Decimal.D7 d => uint_acc d (10 * acc + 7)
  | Decimal.D8 d => uint_acc d (10 * acc + 8)
  | Decimal.D9 d => uint_acc d (10 * acc + 9)
  end.

(** A text that cannot continue a number: it is empty or starts with a
    character that is no digit, no point and no exponent mark. *)
Definition ends_number (rest : string) : Prop :=
  match rest with
  | EmptyString => True
  | String c _ =>
      digit c = None ∧ code c ≠ 46%N ∧ code c ≠ 101%N ∧ code c ≠ 69%N
  end.

(** A comparison of strings that is consistent, as [localeCompare] is for a
    fixed locale: swapping the arguments swaps the sign, and coming before
    or equal is transitive. *)
Definition consistentCompare (localeCompare : string → string → Z) : Prop :=
  (∀ a b, Z.sgn (localeCompare a b) = (- Z.sgn (localeCompare b a))%Z)
  ∧ ∀ a b c,
      (localeCompare a b ≤ 0 → localeCompare b c ≤ 0 → localeCompare a c ≤ 0)%Z.

(** [Number.isSafeInteger]: the integers that a JavaScript number holds
    exactly and prints in plain decimal digits, so that [toString],
    [JSON_stringify] and the number of [JSON_parse] are those of the
    program. *)
Definition safeInteger (n : Z) : Prop := (Z.abs n ≤ 9007199254740991)%Z.

(** The favourites are ports: integers from 1 to 65535. *)
Definition validPort (p : Z) : Prop := (1 ≤ p ≤ 65535)%Z.

(** ** Running actions *)

Lemma exec_bind {A B} (m : Act A) (f : A → Act B) (w : World) :
  exec (m ≫= f) w = exec (f (eval m w)) (exec m w).
Proof. unfold exec, eval, mbind, Act_bind. destruct (m w); reflexivity. Qed.

Lemma eval_bind {A B} (m : Act A) (f : A → Act B) (w : World) :
  eval (m ≫= f) w = eval (f (eval m w)) (exec m w).
Proof. unfold exec, eval, mbind, Act_bind. destruct (m w); reflexivity. Qed.

Lemma exec_ret {A} (x : A) (w : World) : exec (mret x) w = w.
Proof. reflexivity. Qed.

(** ** Favourites *)

Lemma arr_includes_elem_of (x : Z) (arr : list Z) :
  arr_includes x arr = true ↔ x ∈ arr.
Proof.
  unfold arr_includes. rewrite existsb_exists. split.
  - intros (y & Hin & Heq). apply Z.eqb_eq in Heq. subst y.
    by apply list_elem_of_In.
  - intros Hin. exists x. split; [by apply list_elem_of_In | apply Z.eqb_refl].
Qed.

Lemma favorites_after_add (port : Z) (w : World) :
  favoritePorts (store (exec (addFavoritePort port) w))
  = (favoritePorts (store w) ++ [port])%list.
Proof. reflexivity. Qed.

Lemma favorites_after_remove (port : Z) (w : World) :
  favoritePorts (store (exec (removeFavoritePort port) w))
  = List.filter (λ p, negb (Z.eqb p port)) (favoritePorts (store w)).
Proof. reflexivity. Qed.

Lemma elem_of_removed (port x : Z) (F : list Z) :
  x ∈ List.filter (λ p, negb (Z.eqb p port)) F ↔ x ∈ F ∧ x ≠ port.
Proof.
  rewrite !list_elem_of_In, filter_In, negb_true_iff, Z.eqb_neq.
  reflexivity.
Qed.

Lemma removed_absent (port : Z) (F : list Z) :
  port ∉ F → List.filter (λ p, negb (Z.eqb p port)) F = F.
Proof.
  induction F as [|y F IH]; intros Hnot; [reflexivity|].
  apply not_elem_of_cons in Hnot as [Hne Hnot]. simpl.
  destruct (Z.eqb_spec y port) as [->|_]; [done|].
  simpl. by rewrite IH.
Qed.



(** C10: after [removeFavoritePort(p)] the port [p] is absent from the
    list, however many times it occurred; every other port is kept; and when
    [p] was absent the list is unchanged. *)
Theorem removeFavoritePort_removes_every_occurrence (w : World) (p : Z) :
  let F := favoritePorts (store w) in
  let F' := favoritePorts (store (exec (removeFavoritePort p) w)) in
  (p ∉ F') ∧ (∀ x, x ≠ p → (x ∈ F' ↔ x ∈ F)) ∧ (p ∉ F → F' = F).
Proof.
  intros F F'. subst F F'. rewrite favorites_after_remove.
  split; [|split].
  - rewrite elem_of_removed. tauto.
  - intros x Hne. rewrite elem_of_removed. tauto.
  - apply removed_absent.
Qed.

Lemma removeFavoritePort_witness :
  favoritePorts (store (exec (removeFavoritePort 8080) sampleWorld))
  = favoritePorts (store sampleWorld).
Proof.
  apply (removeFavoritePort_removes_every_occurrence sampleWorld 8080).
  apply (bool_decide_unpack _). vm_compute. exact I.
Defined.






(** ** History *)

Lemma history_after_add (st : Stamp) (entry : HistoryEntry.draft) (w : World) :
  history (store (exec (addHistoryEntry st entry) w))
  = pushHistory (makeEntry st entry) (history (store w)).
Proof. reflexivity. Qed.

Lemma pushHistory_length {e : HistoryEntry.t} {h : list HistoryEntry.t} :
  length (pushHistory e h) = (S (length h) `min` 100)%nat.
Proof. unfold pushHistory. rewrite length_take. simpl length. lia. Qed.

Lemma take_app_take {A} (n : nat) (l m : list A) :
  take n (l ++ take n m) = take n (l ++ m).
Proof.
  rewrite !take_app, take_take. f_equal. f_equal. lia.
Qed.

Lemma history_after_entries (calls : list (Stamp * HistoryEntry.draft)) (w : World) :
  (length (history (store w)) ≤ 100)%nat →
  history (store (exec (addHistoryEntries calls) w))
  = take 100 (rev (map (λ c, makeEntry c.1 c.2) calls) ++ history (store w)).
Proof.
  revert w. induction calls as [|[st entry] rest IH]; intros w Hlen.
  - simpl. rewrite exec_ret. symmetry. by apply take_ge.
  - cbn [addHistoryEntries]. rewrite exec_bind, IH.
    + rewrite history_after_add. unfold pushHistory.
      rewrite take_app_take. simpl. by rewrite <- app_assoc.
    + rewrite history_after_add, pushHistory_length. lia.
Qed.

Lemma history_after_calls (calls : list (Stamp * HistoryEntry.draft)) (w : World) :
  calls ≠ [] ∨ (length (history (store w)) ≤ 100)%nat →
  history (store (exec (addHistoryEntries calls) w))
  = take 100 (rev (map (λ c, makeEntry c.1 c.2) calls) ++ history (store w)).
Proof.
  intros [Hne|Hlen]; [|by apply history_after_entries].
  destruct calls as [|[st entry] rest]; [done|].
  cbn [addHistoryEntries]. rewrite exec_bind, history_after_entries.
  - rewrite history_after_add. unfold pushHistory.
    rewrite take_app_take. simpl. by rewrite <- app_assoc.
  - rewrite history_after_add, pushHistory_length. lia.
Qed.

(** C7: after any sequence of [addHistoryEntry] calls, on a log of at most
    100 entries (the initial log is empty) or, when at least one call is
    made, on any log, the log has at most 100 entries and holds the entries
    newest first: the entries of the calls in reverse call order, then the
    earlier log, cut after the hundredth.  A call puts its entry at the
    head, and on a log of 100 entries it drops the last, the oldest. *)
Theorem history_bounded_newest_first (w : World) (calls : list (Stamp * HistoryEntry.draft)) :
  let h := history (store w) in
  let h' := history (store (exec (addHistoryEntries calls) w)) in
  (calls ≠ [] ∨ (length h ≤ 100)%nat →
   (length h' ≤ 100)%nat
   ∧ h' = take 100 (rev (map (λ c, makeEntry c.1 c.2) calls) ++ h))
  ∧ ∀ st entry,
      let h1 := history (store (exec (addHistoryEntry st entry) w)) in
      head h1 = Some (makeEntry st entry)
      ∧ ∀ front oldest,
          h = (front ++ [oldest])%list →
          length front = 99%nat →
          h1 = makeEntry st entry :: front.
Proof.
  intros h h'. subst h h'. split.
  - intros Hpre. rewrite history_after_calls by assumption.
    split; [rewrite length_take; lia | reflexivity].
  - intros st entry h1. subst h1. rewrite history_after_add.
    split; [reflexivity|]. intros front oldest -> H99.
    unfold pushHistory. change (take 100 (?e :: ?l)) with (e :: take 99 l).
    f_equal. by apply take_app_length'.
Qed.

Lemma history_bounded_newest_first_witness :
  (length (history (store (exec (addHistoryEntries sampleCalls) fullWorld))) ≤ 100)%nat
  ∧ history (store (exec (addHistoryEntry sampleStamp (sampleDraft 100)) fullWorld))
    = makeEntry sampleStamp (sampleDraft 100) :: recentEntries.
Proof.
  pose proof (history_bounded_newest_first fullWorld sampleCalls)
    as (Hbound & Hpush).
  split.
  - apply Hbound. right. vm_compute. lia.
  - destruct (Hpush sampleStamp (sampleDraft 100)) as [_ Hdrop].
    apply (Hdrop recentEntries (entryNo 0)); reflexivity.
Defined.

(** C6: one invocation of [killProcess] or of [containerAction] puts exactly
    one new entry into the history, whether the remote call resolves with
    success, resolves with failure or rejects: the history afterwards is the
    earlier history with that one entry pushed at the head, so it is one
    entry longer (up to the bound of 100). *)
Theorem action_recorded_exactly_once (w : World) (reply : AppError.t + KillResult.t) (st : Stamp) :
  (∀ pid force,
     let process := find (λ p, Z.eqb (ProcessNode.pid p) pid) (processes (store w)) in
     let h' := history (store (exec (killProcess reply st pid force) w)) in
     h' = pushHistory (makeEntry st (killDraft process pid force reply))
            (history (store w))
     ∧ length h' = (S (length (history (store w))) `min` 100)%nat)
  ∧ (∀ containerId action,
       let process := find (hasContainerId containerId) (processes (store w)) in
       let h' := history (store (exec (containerAction reply st containerId action) w)) in
       h' = pushHistory
              (makeEntry st (containerDraft process containerId action reply))
              (history (store w))
       ∧ length h' = (S (length (history (store w))) `min` 100)%nat).
Proof.
  split.
  - intros pid force process h'.
    assert (Hh : h' = pushHistory (makeEntry st (killDraft process pid force reply))
                        (history (store w))).
    { subst h' process. destruct reply as [err|res].
      - reflexivity.
      - destruct res as [[] msg elev]; reflexivity. }
    split; [exact Hh|]. rewrite Hh. apply pushHistory_length.
  - intros containerId action process h'.
    assert (Hh : h' = pushHistory
                        (makeEntry st (containerDraft process containerId action reply))
                        (history (store w))).
    { subst h' process. destruct reply as [err|res].
      - reflexivity.
      - destruct res as [[] msg elev]; reflexivity. }
    split; [exact Hh|]. rewrite Hh. apply pushHistory_length.
Qed.

(** ** Fetching and polling *)

Lemma poll_while_polling (captured : Z) (reply : AppError.t + AppState.t) (w : World) :
  isPolling (store w) = true →
  exec (poll captured reply) w
  = exec (setTimeout (TaskPoll captured) captured) (exec (fetchProcesses reply) w).
Proof.
  intros Hp. unfold poll. rewrite exec_bind. cbn [eval get fst].
  rewrite Hp. rewrite exec_bind. reflexivity.
Qed.

Lemma fetch_keeps_polling (reply : AppError.t + AppState.t) (w : World) :
  isPolling (store (exec (fetchProcesses reply) w)) = isPolling (store w)
  ∧ pollingInterval (store (exec (fetchProcesses reply) w)) = pollingInterval (store w)
  ∧ timers (exec (fetchProcesses reply) w) = timers w.
Proof. destruct reply; repeat split; reflexivity. Qed.

(** C8: when [get_processes] rejects, [fetchProcesses] issues that one call
    and changes two fields of the store, [error] (the message) and
    [isLoading] (false): the snapshot fields [processes], [totalConnections],
    [listeningPorts], [dockerAvailable] and [lastUpdated] and everything
    else of the store, the storage and the timers are as before.  A running
    poll loop does that same fetch and then arms its next timer, with the
    same delay as after a fetch that succeeds, and stays in the polling
    state; when that timer fires, the next fetch is issued and the timer is
    armed again. *)
Theorem fetch_failure_keeps_snapshot (w : World) (err : AppError.t) :
  let gp := get_processes (FilterOptions.showAllConnections (filterOptions (store w))) in
  let failed :=
    mkStore (processes (store w)) (totalConnections (store w))
      (listeningPorts (store w)) (dockerAvailable (store w))
      (lastUpdated (store w)) false
      (Some (str_or (AppError.message err) "Failed to fetch processes"))
      (selectedPid (store w)) (selectedPids (store w)) (filterOptions (store w))
      (sortOptions (store w)) (favoritePorts (store w)) (history (store w))
      (pollingInterval (store w)) (isPolling (store w))
      (showDetailsPanel (store w)) in
  exec (fetchProcesses (inl err)) w
  = mkWorld failed (localStorage w) (timers w) (remoteCalls w ++ [gp])
  ∧ ∀ captured,
      isPolling (store w) = true →
      let rearmed := mkTimer (TaskPoll captured) captured in
      exec (poll captured (inl err)) w
      = mkWorld failed (localStorage w) (timers w ++ [rearmed])
          (remoteCalls w ++ [gp])
      ∧ isPolling failed = true
      ∧ (∀ result,
           timers (exec (poll captured (inr result)) w)
           = (timers w ++ [rearmed])%list)
      ∧ ∀ next,
          timers w = [] →
          let w3 := exec (poll captured (inl err);; fireTimer next) w in
          timers w3 = [rearmed]
          ∧ remoteCalls w3 = (remoteCalls w ++ [gp; gp])%list
          ∧ isPolling (store w3) = true.
Proof.
  intros gp failed. split; [reflexivity|].
  intros captured Hp rearmed.
  split; [rewrite poll_while_polling by assumption; reflexivity|].
  split; [exact Hp|].
  split; [intros result; rewrite poll_while_polling by assumption; reflexivity|].
  intros next Hnil w3. subst w3 rearmed failed gp.
  destruct w as [s ls ts calls]. cbn [timers store] in Hnil, Hp. subst ts.
  destruct s as [ps tc lp da lu il er sp sps fo so fp hi pi ip sd].
  cbn [isPolling] in Hp. subst ip.
  split; [destruct next; reflexivity|].
  split; [|destruct next; reflexivity].
  cbn [remoteCalls store filterOptions].
  set (gp := get_processes (FilterOptions.showAllConnections fo)).
  transitivity ((calls ++ [gp]) ++ [gp])%list.
  - destruct next; reflexivity.
  - by rewrite <- app_assoc.
Qed.

Lemma fetch_failure_keeps_snapshot_witness :
  remoteCalls (exec (poll 2000 (inl denied);; fireTimer (inl denied)) pollingWorld)
  = [get_processes false; get_processes false]
  ∧ timers (exec (poll 2000 (inl denied);; fireTimer (inl denied)) pollingWorld)
    = [mkTimer (TaskPoll 2000) 2000]
  ∧ processes (store (exec (poll 2000 (inl denied)) pollingWorld))
    = [launchd; devServer; sshd].
Proof.
  pose proof (fetch_failure_keeps_snapshot pollingWorld denied) as [_ Hpoll].
  destruct (Hpoll 2000 eq_refl) as (Hw & _ & _ & Hnext).
  destruct (Hnext (inl denied) eq_refl) as (Ht & Hc & _).
  split; [exact Hc|]. split; [exact Ht|].
  rewrite Hw. reflexivity.
Defined.

(** The interval that the loop re-arms with is the one that [startPolling]
    read, whatever [setPollingInterval] stored in between. *)
Lemma poll_rearms_with_captured (w : World) (r1 r2 : AppError.t + AppState.t) (ms : Z) :
  isPolling (store w) = false →
  timers w = [] →
  let w' := exec (startPolling r1;; setPollingInterval ms;; fireTimer r2) w in
  timers w'
  = [mkTimer (TaskPoll (pollingInterval (store w))) (pollingInterval (store w))]
  ∧ pollingInterval (store w') = ms.
Proof.
  intros Hidle Hnil w'. subst w'.
  rewrite exec_bind. unfold startPolling at 1 2.
  rewrite !exec_bind. cbn [eval get fst]. rewrite Hidle.
  rewrite !exec_bind.
  rewrite (poll_while_polling _ r1) by reflexivity.
  unfold fireTimer.
  destruct r1, r2; cbn; rewrite Hnil; cbn; split; reflexivity.
Qed.

(** C4, at the failing input: polling starts with the interval 2000, then
    [setPollingInterval(5000)] is called, then the pending timer fires and
    the fetch completes.  The store holds 5000, and the timer that the loop
    arms has the delay 2000. *)
Theorem setPollingInterval_ignored_by_running_loop :
  let w := exec (startPolling (inr freshSnapshot);; setPollingInterval 5000;;
                 fireTimer (inr freshSnapshot)) sampleWorld in
  isPolling (store w) = true
  ∧ pollingInterval (store w) = 5000
  ∧ timers w = [mkTimer (TaskPoll 2000) 2000]
  ∧ remoteCalls w = [get_processes false; get_processes false].
Proof. vm_compute. repeat split; reflexivity. Qed.

(** ** Protected processes *)

Lemma killProcess_calls (w : World) (reply : AppError.t + KillResult.t) (st : Stamp) (pid : Z) (force : bool) :
  remoteCalls (exec (killProcess reply st pid force) w)
  = (remoteCalls w ++ [kill_process pid force])%list.
Proof.
  destruct reply as [err|res]; [reflexivity|].
  destruct res as [[] msg elev]; reflexivity.
Qed.

Lemma killProcess_result (w : World) (res : KillResult.t) (st : Stamp) (pid : Z) (force : bool) :
  eval (killProcess (inr res) st pid force) w = res.
Proof. destruct res as [[] msg elev]; reflexivity. Qed.

(** The guard of the context menu: both termination items are disabled
    exactly when the process is protected; a click on a disabled item
    changes nothing and calls nothing, a click on an enabled one issues the
    remote call. *)
Lemma context_menu_guard (w : World) (reply : AppError.t + KillResult.t) (st : Stamp) (process : ProcessNode.t) (item : ContextMenu.MenuItem) :
  item ∈ ContextMenu.actions process →
  ContextMenu.disabled item = ProcessNode.isProtected process
  ∧ (ProcessNode.isProtected process = true →
     ContextMenu.click reply st process item w = (None, w))
  ∧ (ProcessNode.isProtected process = false →
     remoteCalls (exec (ContextMenu.click reply st process item) w)
     = (remoteCalls w
        ++ [kill_process (ProcessNode.pid process)
              (ContextMenu.onKill_force item)])%list).
Proof.
  intros Hin.
  assert (Hd : ContextMenu.disabled item = ProcessNode.isProtected process).
  { unfold ContextMenu.actions in Hin.
    apply elem_of_cons in Hin as [->|Hin]; [reflexivity|].
    apply list_elem_of_singleton in Hin as ->. reflexivity. }
  split; [exact Hd|]. unfold ContextMenu.click. rewrite Hd. split.
  - intros ->. reflexivity.
  - intros ->. rewrite !exec_bind. cbn [exec setSelectedPid set snd remoteCalls].
    rewrite exec_ret. cbn [remoteCalls]. apply killProcess_calls.
Qed.

(** C1, at the failing input: the snapshot holds the protected process
    with pid 1 and that process is selected.  The context menu of the
    process keeps both termination items disabled, and a click on them calls
    nothing.  The kill shortcut (Ctrl+K) has no such guard: its callback
    reaches [killProcess], which looks at no [isProtected] flag and issues
    the remote [kill_process] call for pid 1, whatever the collaborator then
    answers and for both values of [force]; when the collaborator reports
    success, that success is the result. *)
Theorem protected_process_killed_by_shortcut :
  let w := exec (setSelectedPid (Some 1)) sampleWorld in
  find (λ p, Z.eqb (ProcessNode.pid p) 1) (processes (store w)) = Some launchd
  ∧ ProcessNode.isProtected launchd = true
  ∧ Forall (λ item,
              ContextMenu.disabled item = true
              ∧ ∀ reply,
                  ContextMenu.click reply sampleStamp launchd item w = (None, w))
      (ContextMenu.actions launchd)
  ∧ Keyboard.handleKeyDown false (Keyboard.mkEvent "k" false true "DIV" false)
    = Some Keyboard.onKillSelected
  ∧ (∀ reply,
       remoteCalls (exec (App.onKillSelected reply sampleStamp) w)
       = [kill_process 1 false])
  ∧ (∀ reply force,
       remoteCalls (exec (App.handleKillFromPanel reply sampleStamp force) w)
       = [kill_process 1 force])
  ∧ (∀ reply force,
       remoteCalls (exec (killProcess reply sampleStamp 1 force) w)
       = [kill_process 1 force])
  ∧ ∀ force,
      eval (killProcess (inr terminated) sampleStamp 1 force) w = terminated
      ∧ KillResult.success terminated = true.
Proof.
  intros w. subst w.
  split; [reflexivity|]. split; [reflexivity|].
  split; [repeat constructor|].
  split; [reflexivity|].
  assert (Hpanel : ∀ reply force,
            remoteCalls (exec (App.handleKillFromPanel reply sampleStamp force)
                           (exec (setSelectedPid (Some 1)) sampleWorld))
            = [kill_process 1 force]).
  { intros reply force. destruct reply as [err|[[] msg elev]]; reflexivity. }
  split; [intros reply; apply (Hpanel reply false)|].
  split; [exact Hpanel|].
  split; [intros reply force; apply killProcess_calls|].
  intros force. split; [apply killProcess_result | reflexivity].
Qed.

(** ** Port lookup *)

(** The store action itself forwards whatever port it is given. *)
Lemma findPort_forwards (w : World) (reply : AppError.t + list ProcessNode.t) (port : Z) :
  remoteCalls (exec (findPort reply port) w)
  = (remoteCalls w ++ [find_port port])%list.
Proof. destruct reply; reflexivity. Qed.

(** C9: a lookup for a port outside 1-65535 (or for a text that is no
    number) is rejected by [handleSearch] with the validation message and
    nothing else happens: the world, and with it the log of remote calls, is
    as before.  A lookup for a port inside the range issues exactly one
    [find_port] call, for that port. *)
Theorem out_of_range_lookup_rejected_before_remote (w : World) (reply : AppError.t + list ProcessNode.t) (d : PortSearchDialog.state) :
  (parseInt (PortSearchDialog.port d) = None
   ∨ (∃ n, parseInt (PortSearchDialog.port d) = Some n ∧ (n < 1 ∨ 65535 < n)%Z) →
   PortSearchDialog.handleSearch reply d w
   = (PortSearchDialog.mk (PortSearchDialog.port d) (PortSearchDialog.results d)
        (PortSearchDialog.isSearching d)
        (Some "Please enter a valid port number (1-65535)"), w))
  ∧ ∀ n,
      parseInt (PortSearchDialog.port d) = Some n → (1 ≤ n ≤ 65535)%Z →
      remoteCalls (exec (PortSearchDialog.handleSearch reply d) w)
      = (remoteCalls w ++ [find_port n])%list.
Proof.
  unfold PortSearchDialog.handleSearch. split.
  - intros [Hnan|(n & Hn & Hrange)].
    + rewrite Hnan. reflexivity.
    + rewrite Hn.
      replace (Z.ltb n 1 || Z.gtb n 65535)%bool with true; [reflexivity|].
      symmetry. apply orb_true_iff. rewrite Z.ltb_lt, Z.gtb_gt. lia.
  - intros n Hn Hrange. rewrite Hn.
    replace (Z.ltb n 1 || Z.gtb n 65535)%bool with false.
    + rewrite exec_bind.
      destruct reply as [err|found]; [reflexivity|].
      destruct found; reflexivity.
    + symmetry. apply orb_false_iff. rewrite Z.ltb_ge, Z.gtb_ltb, Z.ltb_ge. lia.
Qed.

Lemma out_of_range_lookup_rejected_witness :
  PortSearchDialog.handleSearch (inr [devServer]) (searchFor "70000") sampleWorld
  = (PortSearchDialog.mk "70000" [] false
       (Some "Please enter a valid port number (1-65535)"), sampleWorld)
  ∧ remoteCalls (exec (PortSearchDialog.handleSearch (inr [devServer]) (searchFor "3000"))
                   sampleWorld)
    = [find_port 3000].
Proof.
  pose proof (out_of_range_lookup_rejected_before_remote sampleWorld
                (inr [devServer]) (searchFor "70000")) as [Hreject _].
  pose proof (out_of_range_lookup_rejected_before_remote sampleWorld
                (inr [devServer]) (searchFor "3000")) as [_ Hcall].
  split.
  - apply Hreject. right. exists 70000. split; [reflexivity | lia].
  - apply (Hcall 3000); [reflexivity | lia].
Defined.

(** ** Loading the favourites *)

(** C2, at the failing inputs: with no stored text, or with the empty text,
    the store starts with the empty list, and a text written by
    [addFavoritePort] is read back; but a stored text that is not JSON makes
    [JSON.parse] throw while the store is created, and stored JSON that is
    no array of numbers is taken as it is, not replaced by the empty list. *)
Theorem createStore_throws_on_malformed_text :
  createStore ∅ = Normal (inl (initialStore []))
  ∧ createStore emptyTextStorage = Normal (inl (initialStore []))
  ∧ createStore (localStorage (exec (addFavoritePort 8080) sampleWorld))
    = Normal (inl (initialStore [3000; 8080]))
  ∧ createStore truncatedStorage = Throw "SyntaxError"
  ∧ createStore garbledStorage = Throw "SyntaxError"
  ∧ createStore objectStorage = Normal (inr (JObject [])).
Proof. vm_compute. repeat split; reflexivity. Qed.

(** ** The view pipeline: favourites first *)

Section Pinned.
Context {A : Type} (fav : A → bool) (cmp : A → A → Q).

(** The comparator puts a favourite before a non-favourite, whatever else
    it compares. *)
Hypothesis cmp_fav : ∀ x y, fav x = true → fav y = false → cmp x y = (-1)%Q.
Hypothesis cmp_unfav : ∀ x y, fav x = false → fav y = true → cmp x y = 1%Q.

Lemma sort_insert_Permutation (x : A) (l : list A) :
  sort_insert cmp x l ≡ₚ x :: l.
Proof.
  induction l as [|y rest IH]; simpl; [reflexivity|].
  destruct (Qle_bool (cmp x y) 0); [reflexivity|].
  rewrite IH. apply Permutation_swap.
Qed.

Lemma array_sort_Permutation (l : list A) : array_sort cmp l ≡ₚ l.
Proof.
  induction l as [|x rest IH]; simpl; [reflexivity|].
  rewrite sort_insert_Permutation. by rewrite IH.
Qed.

Lemma sort_insert_pinned (x : A) (l : list A) :
  pinned fav l → pinned fav (sort_insert cmp x l).
Proof.
  induction l as [|y rest IH]; intros Hp.
  - simpl. split; [intros _; constructor | exact I].
  - destruct Hp as [Hy Hrest]. simpl.
    destruct (Qle_bool (cmp x y) 0) eqn:Hle.
    + split; [|split; assumption].
      intros Hx. destruct (fav y) eqn:Hfy.
      * rewrite (cmp_unfav x y Hx Hfy) in Hle. discriminate Hle.
      * constructor; [assumption | by apply Hy].
    + split; [|by apply IH].
      intros Hfy. rewrite sort_insert_Permutation.
      constructor; [|by apply Hy].
      destruct (fav x) eqn:Hx; [|reflexivity].
      rewrite (cmp_fav x y Hx Hfy) in Hle. discriminate Hle.
Qed.

Lemma array_sort_pinned (l : list A) : pinned fav (array_sort cmp l).
Proof.
  induction l as [|x rest IH]; simpl; [exact I|].
  by apply sort_insert_pinned.
Qed.

Lemma pinned_lookup (l : list A) (i j : nat) (a b : A) :
  pinned fav l → l !! i = Some a → l !! j = Some b →
  fav a = true → fav b = false → (i < j)%nat.
Proof.
  revert i j. induction l as [|x rest IH]; intros i j Hp Hi Hj Ha Hb.
  - discriminate Hi.
  - destruct Hp as [Hx Hrest]. destruct i as [|i], j as [|j]; simpl in *.
    + congruence.
    + lia.
    + injection Hj as ->. specialize (Hx Hb).
      rewrite Forall_lookup in Hx. specialize (Hx i a Hi). congruence.
    + apply ->Nat.succ_lt_mono. by apply (IH i j).
Qed.
End Pinned.

Lemma compareProcesses_fav (localeCompare : string → string → Z) (favs : list Z) (so : SortOptions.t) (a b : ProcessNode.t) :
  hasFavoritePort favs a = true → hasFavoritePort favs b = false →
  compareProcesses localeCompare favs so a b = (-1)%Q.
Proof. intros Ha Hb. unfold compareProcesses. rewrite Ha, Hb. reflexivity. Qed.

Lemma compareProcesses_unfav (localeCompare : string → string → Z) (favs : list Z) (so : SortOptions.t) (a b : ProcessNode.t) :
  hasFavoritePort favs a = false → hasFavoritePort favs b = true →
  compareProcesses localeCompare favs so a b = 1%Q.
Proof. intros Ha Hb. unfold compareProcesses. rewrite Ha, Hb. reflexivity. Qed.

(** C5: for every snapshot, filter, sort field, direction and favourites
    list, the sequence that the table shows holds exactly the processes that
    pass the filter, and in it every process with a favourite port stands
    before every process without one.  The same is true of any arrangement
    that is ordered by the comparator of the table, so it does not depend on
    how the engine sorts. *)
Theorem favorites_sorted_first (toLowerCase : string → string) (localeCompare : string → string → Z) (processes : list ProcessNode.t) (filterOptions : FilterOptions.t) (sortOptions : SortOptions.t) (favoritePorts : list Z) :
  let shown :=
    sortedProcesses toLowerCase localeCompare processes filterOptions
      sortOptions favoritePorts in
  shown ≡ₚ filteredProcesses toLowerCase processes filterOptions
  ∧ (∀ i j a b,
       shown !! i = Some a → shown !! j = Some b →
       hasFavoritePort favoritePorts a = true →
       hasFavoritePort favoritePorts b = false →
       (i < j)%nat)
  ∧ ∀ arranged,
      orderedBy (compareProcesses localeCompare favoritePorts sortOptions) arranged →
      ∀ i j a b,
        arranged !! i = Some a → arranged !! j = Some b →
        hasFavoritePort favoritePorts a = true →
        hasFavoritePort favoritePorts b = false →
        (i < j)%nat.
Proof.
  intros shown. subst shown. unfold sortedProcesses. split; [|split].
  - apply array_sort_Permutation.
  - intros i j a b. apply pinned_lookup. apply array_sort_pinned.
    + apply compareProcesses_fav.
    + apply compareProcesses_unfav.
  - intros arranged Hord i j a b Hi Hj Ha Hb.
    destruct (Nat.lt_trichotomy i j) as [Hlt|[->|Hgt]]; [exact Hlt| |].
    + congruence.
    + specialize (Hord j i b a Hgt Hj Hi).
      rewrite (compareProcesses_unfav localeCompare _ _ b a Hb Ha) in Hord.
      exfalso. revert Hord. unfold Qle. simpl. lia.
Qed.

Lemma favorites_sorted_first_witness :
  sortedProcesses lowerCase codeUnitCompare [devServer; sshd] noFilter
    (SortOptions.mk field_port asc) [3000]
  = [devServer; sshd]
  ∧ sortedProcesses lowerCase codeUnitCompare [sshd; devServer] noFilter
      (SortOptions.mk field_port desc) [3000]
    = [devServer; sshd]
  ∧ (0 < 1)%nat ∧ (0 < 1)%nat.
Proof.
  split; [reflexivity|]. split; [reflexivity|].
  destruct (favorites_sorted_first lowerCase codeUnitCompare [sshd; devServer]
              noFilter (SortOptions.mk field_port asc) [3000])
    as (_ & Horder & Hany).
  split.
  - apply (Horder 0%nat 1%nat devServer sshd); reflexivity.
  - apply (Hany [devServer; sshd]) with (a := devServer) (b := sshd);
      try reflexivity.
    intros i j a b Hlt Hi Hj.
    destruct i as [|[|i]], j as [|[|j]]; simpl in Hi, Hj;
      try discriminate; try lia.
    injection Hi as <-. injection Hj as <-. vm_compute. discriminate.
Defined.


(** ** Selection *)

(** X1: [toggleSelectedPid] flips the membership of its pid and of no other,
    and toggling the same pid twice gives back the selection. *)
Theorem toggleSelectedPid_involutive (w : World) (pid : Z) :
  let once := selectedPids (store (exec (toggleSelectedPid pid) w)) in
  selectedPids (store (exec (toggleSelectedPid pid;; toggleSelectedPid pid) w))
  = selectedPids (store w)
  ∧ (pid ∈ once ↔ pid ∉ selectedPids (store w))
  ∧ ∀ q, q ≠ pid → (q ∈ once ↔ q ∈ selectedPids (store w)).
Proof.
  intros once. subst once. rewrite exec_bind.
  cbn [exec eval toggleSelectedPid set snd store selectedPids set_selectedPids].
  generalize (selectedPids (store w)). intros S.
  destruct (decide (pid ∈ S)) as [Hin|Hout].
  - rewrite decide_False by set_solver.
    split; [|split; set_solver].
    apply set_eq. intros x. destruct (decide (x = pid)); set_solver.
  - rewrite decide_True by set_solver.
    split; [|split; set_solver].
    apply set_eq. intros x. destruct (decide (x = pid)); set_solver.
Qed.

Lemma toggleSelectedPid_witness :
  (200 ∈ selectedPids (store (exec (toggleSelectedPid 100) (exec (toggleSelectedPid 200) sampleWorld)))
   ↔ 200 ∈ selectedPids (store (exec (toggleSelectedPid 200) sampleWorld))).
Proof.
  destruct (toggleSelectedPid_involutive (exec (toggleSelectedPid 200) sampleWorld) 100)
    as (_ & _ & Hother).
  apply Hother. lia.
Defined.

(** X2: [selectAllPids] selects the pid of every process of the snapshot and
    nothing else; the filter options play no part, so the processes that the
    table shows are among the selected ones, and so are those it hides. *)
Theorem selectAllPids_selects_whole_snapshot (toLowerCase : string → string) (w : World) :
  let selected := selectedPids (store (exec selectAllPids w)) in
  (∀ pid,
     pid ∈ selected ↔ ∃ p, p ∈ processes (store w) ∧ ProcessNode.pid p = pid)
  ∧ ∀ p,
      p ∈ filteredProcesses toLowerCase (processes (store w)) (filterOptions (store w)) →
      ProcessNode.pid p ∈ selected.
Proof.
  intros selected. subst selected.
  cbn [exec selectAllPids set snd store selectedPids set_selectedPids].
  assert (Hall : ∀ pid, pid ∈ (list_to_set (map ProcessNode.pid (processes (store w))) : gset Z)
                        ↔ ∃ p, p ∈ processes (store w) ∧ ProcessNode.pid p = pid).
  { intros pid. rewrite elem_of_list_to_set.
    change (map ProcessNode.pid (processes (store w)))
      with (ProcessNode.pid <$> processes (store w)).
    rewrite list_elem_of_fmap. naive_solver. }
  split; [exact Hall|].
  intros p Hp. apply Hall. exists p. split; [|reflexivity].
  unfold filteredProcesses in Hp.
  assert (Hsub : ∀ (f : ProcessNode.t → bool) l x, x ∈ List.filter f l → x ∈ l).
  { intros f l x. rewrite !list_elem_of_In, filter_In. tauto. }
  destruct (FilterOptions.selectedState _); [|apply Hsub in Hp];
    (destruct (FilterOptions.selectedProtocol _); [|apply Hsub in Hp]);
    (destruct (FilterOptions.searchQuery _); [|apply Hsub in Hp]); exact Hp.
Qed.

Lemma selectAllPids_witness :
  200 ∈ selectedPids (store (exec selectAllPids sampleWorld)).
Proof.
  destruct (selectAllPids_selects_whole_snapshot lowerCase sampleWorld) as [_ Hshown].
  apply (Hshown sshd). vm_compute.
  apply elem_of_cons; right. apply elem_of_cons; right.
  apply elem_of_cons; left. reflexivity.
Defined.

(** ** The snapshot *)


(** ** The poll loop *)

(** X4: [startPolling] while polling is on changes nothing: no second loop,
    no fetch, no timer. *)
Theorem startPolling_idempotent (w : World) (reply : AppError.t + AppState.t) :
  isPolling (store w) = true → startPolling reply w = (tt, w).
Proof.
  intros Hp. unfold startPolling, mbind, Act_bind, get. rewrite Hp. reflexivity.
Qed.

Lemma startPolling_idempotent_witness :
  startPolling (inr freshSnapshot) pollingWorld = (tt, pollingWorld).
Proof. apply startPolling_idempotent. reflexivity. Defined.

(** X5: after [stopPolling] the loop ends at its next step: the pending poll
    timer, when it fires, fetches nothing and arms no new timer. *)
Theorem stopPolling_ends_loop (w : World) (reply : AppError.t + AppState.t) :
  isPolling (store (exec stopPolling w)) = false
  ∧ (∀ captured,
       poll captured reply (exec stopPolling w) = (tt, exec stopPolling w))
  ∧ ∀ captured ms rest,
      timers w = mkTimer (TaskPoll captured) ms :: rest →
      let w' := exec (stopPolling;; fireTimer reply) w in
      timers w' = rest
      ∧ remoteCalls w' = remoteCalls w
      ∧ store w' = store (exec stopPolling w).
Proof.
  split; [reflexivity|]. split; [reflexivity|].
  intros captured ms rest Ht w'. subst w'. rewrite exec_bind.
  unfold fireTimer, exec. cbn [stopPolling set snd timers]. rewrite Ht.
  repeat split.
Qed.

Lemma stopPolling_ends_loop_witness :
  timers (exec (stopPolling;; fireTimer (inr freshSnapshot))
            (exec (startPolling (inr freshSnapshot)) sampleWorld))
  = [].
Proof.
  destruct (stopPolling_ends_loop (exec (startPolling (inr freshSnapshot)) sampleWorld)
              (inr freshSnapshot)) as (_ & _ & Hfire).
  apply (Hfire 2000 2000 []). reflexivity.
Defined.

(** X6: [stopPolling] cancels no timer.  When polling is started again
    before the pending timer fires, the earlier loop resumes beside the new
    one: two poll timers are pending, and after both have fired, each with
    its fetch, two are pending again; four fetches have been issued. *)
Theorem restart_before_timer_doubles_loop (w : World) (r1 r2 r3 r4 : AppError.t + AppState.t) :
  isPolling (store w) = false →
  timers w = [] →
  let c := pollingInterval (store w) in
  let gp := get_processes (FilterOptions.showAllConnections (filterOptions (store w))) in
  let w1 := exec (startPolling r1;; stopPolling;; startPolling r2) w in
  let w2 := exec (fireTimer r3;; fireTimer r4) w1 in
  timers w1 = [mkTimer (TaskPoll c) c; mkTimer (TaskPoll c) c]
  ∧ timers w2 = [mkTimer (TaskPoll c) c; mkTimer (TaskPoll c) c]
  ∧ remoteCalls w2 = (remoteCalls w ++ [gp; gp; gp; gp])%list.
Proof.
  intros Hidle Hnil c gp w1 w2. subst w2 w1 gp c.
  destruct w as [s ls ts calls]. cbn [store timers] in Hidle, Hnil. subst ts.
  destruct s as [ps tc lp da lu il er sp sps fo so fp hi pi ip sd].
  cbn [isPolling] in Hidle. subst ip.
  split; [destruct r1, r2; reflexivity|].
  split; [destruct r1, r2, r3, r4; reflexivity|].
  set (gp := get_processes (FilterOptions.showAllConnections fo)).
  transitivity ((((calls ++ [gp]) ++ [gp]) ++ [gp]) ++ [gp])%list.
  - destruct r1, r2, r3, r4; reflexivity.
  - by rewrite <- !app_assoc.
Qed.

Lemma restart_before_timer_doubles_loop_witness :
  timers (exec (startPolling (inr freshSnapshot);; stopPolling;;
                startPolling (inl denied)) sampleWorld)
  = [mkTimer (TaskPoll 2000) 2000; mkTimer (TaskPoll 2000) 2000].
Proof.
  apply (restart_before_timer_doubles_loop sampleWorld (inr freshSnapshot)
           (inl denied) (inr freshSnapshot) (inr freshSnapshot));
    reflexivity.
Defined.

(** ** Actions: refresh and result *)

(** X7: an action schedules its refresh exactly when the collaborator
    reports success: one timer, 500 ms after [killProcess] and 1000 ms after
    [containerAction]; a reported failure or a rejection schedules nothing.
    When that timer fires, it issues one [get_processes] call. *)
Theorem refresh_scheduled_only_on_success (w : World) (reply : AppError.t + KillResult.t) (st : Stamp) :
  let succeeded := match reply with inr r => KillResult.success r | inl _ => false end in
  (∀ pid force,
     timers (exec (killProcess reply st pid force) w)
     = (timers w ++ if succeeded then [mkTimer TaskFetch 500] else [])%list)
  ∧ (∀ containerId action,
       timers (exec (containerAction reply st containerId action) w)
       = (timers w ++ if succeeded then [mkTimer TaskFetch 1000] else [])%list)
  ∧ ∀ pid force fetched,
      succeeded = true → timers w = [] →
      let w' := exec (killProcess reply st pid force;; fireTimer fetched) w in
      timers w' = []
      ∧ remoteCalls w'
        = (remoteCalls w
           ++ [kill_process pid force;
               get_processes
                 (FilterOptions.showAllConnections (filterOptions (store w)))])%list.
Proof.
  intros succeeded. subst succeeded. split; [|split].
  - intros pid force. destruct reply as [err|[[] msg elev]];
      cbn; rewrite ?app_nil_r; reflexivity.
  - intros containerId action. destruct reply as [err|[[] msg elev]];
      cbn; rewrite ?app_nil_r; reflexivity.
  - intros pid force fetched Hs Hnil w'. subst w'.
    destruct reply as [err|[[] msg elev]]; try discriminate Hs.
    destruct w as [s ls ts calls]. cbn [timers] in Hnil. subst ts.
    split; [destruct fetched; reflexivity|].
    cbn [remoteCalls store].
    set (gp := get_processes _).
    transitivity ((calls ++ [kill_process pid force]) ++ [gp])%list.
    + destruct fetched; reflexivity.
    + by rewrite <- app_assoc.
Qed.

Lemma refresh_scheduled_only_on_success_witness :
  remoteCalls (exec (killProcess (inr terminated) sampleStamp 100 false;;
                     fireTimer (inr freshSnapshot)) sampleWorld)
  = [kill_process 100 false; get_processes false].
Proof.
  destruct (refresh_scheduled_only_on_success sampleWorld (inr terminated) sampleStamp)
    as (_ & _ & Hfire).
  apply (Hfire 100 false (inr freshSnapshot)); reflexivity.
Defined.

(** X8: whatever the collaborator does, the caller of [killProcess] or
    [containerAction] gets a result, and the entry put at the head of the
    history reports the same outcome and the same message as that result; a
    rejection gives a result with [success = false]. *)
Theorem result_and_audit_agree (w : World) (reply : AppError.t + KillResult.t) (st : Stamp) :
  (∀ pid force,
     let result := eval (killProcess reply st pid force) w in
     let w' := exec (killProcess reply st pid force) w in
     ∃ entry,
       head (history (store w')) = Some entry
       ∧ HistoryEntry.success entry = KillResult.success result
       ∧ HistoryEntry.message entry = KillResult.message result
       ∧ HistoryEntry.pid entry = pid
       ∧ ((∃ err, reply = inl err) → KillResult.success result = false))
  ∧ ∀ containerId action,
      let result := eval (containerAction reply st containerId action) w in
      let w' := exec (containerAction reply st containerId action) w in
      ∃ entry,
        head (history (store w')) = Some entry
        ∧ HistoryEntry.success entry = KillResult.success result
        ∧ HistoryEntry.message entry = KillResult.message result
        ∧ ((∃ err, reply = inl err) → KillResult.success result = false).
Proof.
  split.
  - intros pid force result w'. subst result w'.
    destruct reply as [err|[[] msg elev]]; eexists;
      (split; [reflexivity|]); repeat split; intros [e He]; discriminate He.
  - intros containerId action result w'. subst result w'.
    destruct reply as [err|[[] msg elev]]; eexists;
      (split; [reflexivity|]); repeat split; intros [e He]; discriminate He.
Qed.

Lemma result_and_audit_agree_witness :
  KillResult.success (eval (killProcess (inl denied) sampleStamp 100 true) sampleWorld)
  = false.
Proof.
  destruct (result_and_audit_agree sampleWorld (inl denied) sampleStamp) as [Hkill _].
  destruct (Hkill 100 true) as (entry & _ & _ & _ & _ & Hfail).
  apply Hfail. exists denied. reflexivity.
Defined.

(** X9: [handleKillFromPanel], behind the details panel and the kill
    shortcut.  Without a selected pid (or with pid 0) it does nothing.
    Otherwise it issues the [kill_process] call for the selected pid; on
    success the selection is cleared and no alert is shown, on failure the
    selection stays and the message is shown. *)
Theorem handleKillFromPanel_outcomes (w : World) (reply : AppError.t + KillResult.t) (st : Stamp) (force : bool) :
  (selectedPid (store w) = None ∨ selectedPid (store w) = Some 0 →
   App.handleKillFromPanel reply st force w = (None, w))
  ∧ ∀ pid,
      selectedPid (store w) = Some pid → pid ≠ 0 →
      let result := eval (killProcess reply st pid force) w in
      let alert := eval (App.handleKillFromPanel reply st force) w in
      let w' := exec (App.handleKillFromPanel reply st force) w in
      remoteCalls w' = (remoteCalls w ++ [kill_process pid force])%list
      ∧ (KillResult.success result = true →
         selectedPid (store w') = None ∧ alert = None)
      ∧ (KillResult.success result = false →
         selectedPid (store w') = Some pid
         ∧ alert = Some (KillResult.message result)).
Proof.
  split.
  - unfold App.handleKillFromPanel, mbind, Act_bind, get.
    intros [Hs|Hs]; rewrite Hs; reflexivity.
  - intros pid Hs Hne result alert w'. subst result alert w'.
    unfold App.handleKillFromPanel. rewrite exec_bind, eval_bind.
    cbn [eval exec get fst snd]. rewrite Hs.
    destruct (Z.eqb_spec pid 0) as [->|_]; [done|].
    destruct reply as [err|[[] msg elev]];
      (split; [reflexivity|]); split; intros Hx;
      try (exfalso; revert Hx; cbv; discriminate);
      (split; [first [reflexivity | exact Hs] | reflexivity]).
Qed.

Lemma handleKillFromPanel_outcomes_witness :
  remoteCalls (exec (App.handleKillFromPanel (inr terminated) sampleStamp false)
                 (exec (setSelectedPid (Some 1)) sampleWorld))
  = [kill_process 1 false].
Proof.
  destruct (handleKillFromPanel_outcomes (exec (setSelectedPid (Some 1)) sampleWorld)
              (inr terminated) sampleStamp false) as [_ Hsel].
  destruct (Hsel 1) as [Hcalls _]; [reflexivity | lia | exact Hcalls].
Defined.

(** ** Favourites: toggling and the dialog *)

Lemma favorites_after_toggle (port : Z) (w : World) :
  favoritePorts (store (exec (toggleFavoritePort port) w))
  = if arr_includes port (favoritePorts (store w))
    then List.filter (λ p, negb (Z.eqb p port)) (favoritePorts (store w))
    else (favoritePorts (store w) ++ [port])%list.
Proof.
  unfold toggleFavoritePort. rewrite exec_bind. cbn [eval get fst exec snd].
  destruct (arr_includes port (favoritePorts (store w))); reflexivity.
Qed.

(** X10: [toggleFavoritePort(p)] flips whether [p] is a favourite and leaves
    every other port as it was; on a list without [p], toggling twice gives
    back the same list. *)
Theorem toggleFavoritePort_flips (w : World) (p : Z) :
  let F := favoritePorts (store w) in
  let F' := favoritePorts (store (exec (toggleFavoritePort p) w)) in
  (p ∈ F' ↔ p ∉ F)
  ∧ (∀ x, x ≠ p → (x ∈ F' ↔ x ∈ F))
  ∧ (p ∉ F →
     favoritePorts (store (exec (toggleFavoritePort p;; toggleFavoritePort p) w)) = F).
Proof.
  intros F F'. subst F F'. rewrite favorites_after_toggle.
  destruct (arr_includes p (favoritePorts (store w))) eqn:Hin.
  - apply arr_includes_elem_of in Hin. split; [|split].
    + rewrite elem_of_removed. tauto.
    + intros x Hx. rewrite elem_of_removed. tauto.
    + contradiction.
  - assert (Hnot : p ∉ favoritePorts (store w))
      by (rewrite <- arr_includes_elem_of; congruence).
    split; [|split].
    + rewrite elem_of_app, list_elem_of_singleton. tauto.
    + intros x Hx. rewrite elem_of_app, list_elem_of_singleton. tauto.
    + intros _. rewrite exec_bind, favorites_after_toggle, favorites_after_toggle.
      rewrite Hin.
      replace (arr_includes p (favoritePorts (store w) ++ [p])) with true.
      * rewrite List.filter_app, removed_absent by assumption.
        simpl. rewrite Z.eqb_refl. simpl. apply app_nil_r.
      * symmetry. apply arr_includes_elem_of.
        rewrite elem_of_app, list_elem_of_singleton. by right.
Qed.

Lemma toggleFavoritePort_flips_witness :
  (3000 ∈ favoritePorts (store (exec (toggleFavoritePort 8080) sampleWorld))
   ↔ 3000 ∈ favoritePorts (store sampleWorld))
  ∧ favoritePorts (store (exec (toggleFavoritePort 8080;; toggleFavoritePort 8080)
                            sampleWorld))
    = favoritePorts (store sampleWorld).
Proof.
  destruct (toggleFavoritePort_flips sampleWorld 8080) as (_ & Hother & Htwice).
  split.
  - apply Hother. lia.
  - apply Htwice. apply (bool_decide_unpack _). vm_compute. exact I.
Defined.

(** X11: the star of a process row toggles the first port of the process.
    For a process without ports it does nothing; for a process that has
    ports and no favourite port, the process has a favourite port
    afterwards, so the table pins it. *)
Theorem star_pins_process (w : World) (process : ProcessNode.t) :
  (ProcessNode.ports process = [] →
   ProcessRow.handleToggleFavorite process w = (tt, w))
  ∧ (ProcessNode.ports process ≠ [] →
     hasFavoritePort (favoritePorts (store w)) process = false →
     hasFavoritePort
       (favoritePorts (store (exec (ProcessRow.handleToggleFavorite process) w)))
       process
     = true).
Proof.
  unfold ProcessRow.handleToggleFavorite. split.
  - intros ->. reflexivity.
  - intros Hne Hfav. destruct (ProcessNode.ports process) as [|first rest] eqn:Hp;
      [done|]. cbn [head].
    unfold hasFavoritePort, some in *. rewrite Hp in *. cbn [existsb] in *.
    apply orb_false_iff in Hfav as [Hfirst _].
    rewrite favorites_after_toggle, Hfirst.
    replace (arr_includes (PortEntry.localPort first)
               (favoritePorts (store w) ++ [PortEntry.localPort first]))
      with true; [reflexivity|].
    symmetry. apply arr_includes_elem_of.
    rewrite elem_of_app, list_elem_of_singleton. by right.
Qed.

Lemma star_pins_process_witness :
  hasFavoritePort
    (favoritePorts (store (exec (ProcessRow.handleToggleFavorite sshd) sampleWorld)))
    sshd
  = true.
Proof.
  destruct (star_pins_process sampleWorld sshd) as [_ Hpin].
  apply Hpin; [discriminate | reflexivity].
Defined.

(** X12: the custom-port field of the favourites dialog adds only a port
    from 1 to 65535: a list of valid ports stays a list of valid ports
    through [handleAddCustom], whatever the text, and through
    [removeFavoritePort]; a text that is no number changes nothing. *)
Theorem custom_port_keeps_ports_valid (w : World) (text : string) :
  (Forall validPort (favoritePorts (store w)) →
   Forall validPort
     (favoritePorts (store (exec (FavoritesDialog.handleAddCustom text) w)))
   ∧ ∀ p, Forall validPort (favoritePorts (store (exec (removeFavoritePort p) w))))
  ∧ (parseInt text = None → FavoritesDialog.handleAddCustom text w = (tt, w)).
Proof.
  unfold FavoritesDialog.handleAddCustom. split.
  - intros Hvalid. split.
    + rewrite exec_bind. cbn [eval get fst exec snd].
      destruct (parseInt text) as [port|]; [|exact Hvalid].
      destruct (Z.leb_spec 1 port) as [H1|_]; [|exact Hvalid].
      destruct (Z.leb_spec port 65535) as [H2|_]; [|exact Hvalid].
      cbn [andb].
      destruct (arr_includes port (favoritePorts (store w))); [exact Hvalid|].
      cbn [negb]. rewrite favorites_after_add.
      apply Forall_app. split; [exact Hvalid|].
      apply Forall_singleton. split; assumption.
    + intros p. rewrite favorites_after_remove.
      rewrite Forall_forall in *. intros x Hx.
      apply elem_of_removed in Hx as [Hx _]. by apply Hvalid.
  - unfold mbind, Act_bind, get. intros ->. reflexivity.
Qed.

Lemma custom_port_keeps_ports_valid_witness :
  Forall validPort
    (favoritePorts (store (exec (FavoritesDialog.handleAddCustom "70000") sampleWorld)))
  ∧ FavoritesDialog.handleAddCustom "port" sampleWorld = (tt, sampleWorld).
Proof.
  destruct (custom_port_keeps_ports_valid sampleWorld "70000") as [Hvalid _].
  destruct (custom_port_keeps_ports_valid sampleWorld "port") as [_ Hnan].
  split.
  - apply Hvalid. apply Forall_singleton. unfold validPort. lia.
  - apply Hnan. reflexivity.
Defined.

(** ** Keyboard shortcuts *)

(** X13: Escape is always handled.  While the focus is in an input, a text
    area or an editable element, a key without Cmd/Ctrl triggers nothing
    else, and the port search and select-all never fire there, with or
    without a modifier.  The kill shortcut fires only for the key [k] with
    the command key of the platform held. *)
Theorem shortcuts_respect_typing (isMac : bool) (e : Keyboard.KeyboardEvent) :
  (Keyboard.key e = "Escape" →
   Keyboard.handleKeyDown isMac e = Some Keyboard.onEscape)
  ∧ (Keyboard.isInput e = true →
     Keyboard.metaKey e = false → Keyboard.ctrlKey e = false →
     Keyboard.key e ≠ "Escape" →
     Keyboard.handleKeyDown isMac e = None)
  ∧ (Keyboard.isInput e = true →
     Keyboard.handleKeyDown isMac e ≠ Some Keyboard.onPortSearch
     ∧ Keyboard.handleKeyDown isMac e ≠ Some Keyboard.onSelectAll)
  ∧ (Keyboard.handleKeyDown isMac e = Some Keyboard.onKillSelected →
     Keyboard.key e = "k"
     ∧ (if isMac then Keyboard.metaKey e else Keyboard.ctrlKey e) = true).
Proof.
  unfold Keyboard.handleKeyDown. split; [|split; [|split]].
  - intros ->. reflexivity.
  - intros Hin Hm Hc Hk. rewrite Hin, Hm, Hc.
    apply String.eqb_neq in Hk. rewrite Hk. reflexivity.
  - intros Hin. rewrite Hin. cbn [negb andb].
    rewrite !andb_false_r. cbn [andb].
    split;
      repeat match goal with
        | |- context [if ?b then _ else _] => destruct b
        end; discriminate.
  - destruct (String.eqb (Keyboard.key e) "Escape"); [discriminate|].
    destruct (Keyboard.isInput e && negb (Keyboard.metaKey e)
              && negb (Keyboard.ctrlKey e))%bool; [discriminate|].
    destruct (if isMac then Keyboard.metaKey e else Keyboard.ctrlKey e).
    + destruct (String.eqb_spec (Keyboard.key e) "k") as [Hk|_];
        [intros _; split; [exact Hk | reflexivity]|].
      cbn [andb].
      repeat match goal with
        | |- context [if ?b then _ else _] => destruct b
        end; discriminate.
    + cbn [andb].
      repeat match goal with
        | |- context [if ?b then _ else _] => destruct b
        end; discriminate.
Qed.

Lemma shortcuts_respect_typing_witness :
  Keyboard.handleKeyDown true (Keyboard.mkEvent "p" false false "INPUT" false) = None
  ∧ Keyboard.handleKeyDown false (Keyboard.mkEvent "Escape" false false "INPUT" false)
    = Some Keyboard.onEscape
  ∧ Keyboard.handleKeyDown true (Keyboard.mkEvent "a" true false "TEXTAREA" false)
    ≠ Some Keyboard.onSelectAll
  ∧ Keyboard.key (Keyboard.mkEvent "k" false true "DIV" false) = "k".
Proof.
  split; [|split; [|split]].
  - apply (shortcuts_respect_typing true
             (Keyboard.mkEvent "p" false false "INPUT" false));
      [reflexivity | reflexivity | reflexivity | discriminate].
  - apply (shortcuts_respect_typing false
             (Keyboard.mkEvent "Escape" false false "INPUT" false)).
    reflexivity.
  - apply (shortcuts_respect_typing true
             (Keyboard.mkEvent "a" true false "TEXTAREA" false)).
    reflexivity.
  - apply (shortcuts_respect_typing false
             (Keyboard.mkEvent "k" false true "DIV" false)).
    reflexivity.
Defined.

(** ** Decimal numerals: printing and reading *)

Lemma uint_acc_pos (d : Decimal.uint) (a : positive) :
  uint_acc d (Z.pos a) = Z.pos (Pos.of_uint_acc d a).
Proof.
  revert a. induction d; intros a; cbn [uint_acc Pos.of_uint_acc];
    [reflexivity | ..]; rewrite <- IHd; f_equal; lia.
Qed.

Lemma uint_acc_zero (d : Decimal.uint) :
  uint_acc d 0 = Z.of_N (Pos.of_uint d).
Proof.
  induction d; cbn [uint_acc Pos.of_uint]; [reflexivity | exact IHd | ..];
    apply (uint_acc_pos d).
Qed.

Lemma uint_acc_to_uint (p : positive) : uint_acc (Pos.to_uint p) 0 = Z.pos p.
Proof. by rewrite uint_acc_zero, DecimalPos.Unsigned.of_to. Qed.

Lemma to_uint_normal (p : positive) :
  Pos.to_uint p = Decimal.unorm (Pos.to_uint p).
Proof.
  rewrite <- (DecimalPos.Unsigned.to_of (Pos.to_uint p)).
  by rewrite DecimalPos.Unsigned.of_to.
Qed.

Lemma to_uint_leading (p : positive) :
  Pos.to_uint p ≠ Decimal.Nil ∧ ∀ d, Pos.to_uint p ≠ Decimal.D0 d.
Proof.
  split; [apply DecimalPos.Unsigned.to_uint_nonnil|].
  intros d Hd. pose proof (to_uint_normal p) as Hn.
  rewrite Hd in Hn. rewrite DecimalFacts.unorm_D0 in Hn.
  pose proof (DecimalPos.Unsigned.to_uint_nonzero p) as Hz.
  unfold Decimal.unorm in Hn.
  destruct (Decimal.nzhead d) eqn:Hh; try discriminate Hn.
  - injection Hn as ->. rewrite Hd in Hz. by apply Hz.
  - apply (DecimalFacts.nzhead_nonzero d u). congruence.
Qed.

Lemma digits_cons (c : ascii) (s : string) (acc : Z) (count : nat) :
  digits acc count (String c s)
  = match digit c with
    | Some d => digits (10 * acc + d) (S count) s
    | None => (acc, count, String c s)
    end.
Proof. reflexivity. Qed.

Lemma append_cons (c : ascii) (s r : string) :
  String c s ++ r = String c (s ++ r).
Proof. reflexivity. Qed.

(** [digits] reads a printed numeral to its end. *)
Lemma digits_string_of_uint (d : Decimal.uint) (acc : Z) (count : nat) (rest : string) :
  ends_number rest →
  digits acc count (NilEmpty.string_of_uint d ++ rest)
  = (uint_acc d acc, (count + Decimal.nb_digits d)%nat, rest).
Proof.
  intros Hrest. revert acc count.
  induction d; intros acc count;
    cbn [NilEmpty.string_of_uint uint_acc Decimal.nb_digits];
    [| rewrite append_cons, digits_cons;
       match goal with
       | |- context [digit ?c] =>
           let v := eval vm_compute in (digit c) in change (digit c) with v
       end;
       cbv iota; rewrite IHd, ?Z.add_0_r; f_equal; f_equal; lia ..].
  rewrite Nat.add_0_r. destruct rest as [|c r]; [reflexivity|].
  destruct Hrest as [Hd _].
  change ("" ++ String c r) with (String c r).
  by rewrite digits_cons, Hd.
Qed.

Lemma append_assoc (a b c : string) : (a ++ b) ++ c = a ++ (b ++ c).
Proof. induction a as [|x a IH]; [reflexivity|]. by rewrite !append_cons, IH. Qed.

Lemma append_empty_r (a : string) : a ++ EmptyString = a.
Proof. induction a as [|x a IH]; [reflexivity|]. by rewrite !append_cons, IH. Qed.

Lemma length_append (a b : string) :
  String.length (a ++ b) = (String.length a + String.length b)%nat.
Proof.
  induction a as [|x a IH]; [reflexivity|].
  rewrite append_cons. cbn [String.length]. by rewrite IH.
Qed.

(** How [toString] prints: [0], the digits of a positive number, and a
    minus sign before the digits of a negative one. *)
Lemma toString_pos (p : positive) :
  toString (Z.pos p) = NilEmpty.string_of_uint (Pos.to_uint p).
Proof.
  unfold toString. cbn [Z.to_int NilZero.string_of_int].
  destruct (to_uint_leading p) as [Hnil _].
  unfold NilZero.string_of_uint. by destruct (Pos.to_uint p).
Qed.

Lemma toString_neg (p : positive) :
  toString (Z.neg p) = String "-" (NilEmpty.string_of_uint (Pos.to_uint p)).
Proof.
  unfold toString. cbn [Z.to_int NilZero.string_of_int].
  destruct (to_uint_leading p) as [Hnil _].
  unfold NilZero.string_of_uint. by destruct (Pos.to_uint p).
Qed.

Lemma parse_fraction_end (ip : Z) (rest : string) :
  ends_number rest → parse_fraction ip rest = Some (ip, O, rest).
Proof.
  destruct rest as [|c r]; [reflexivity|]. intros (_ & H46 & _).
  unfold parse_fraction. apply N.eqb_neq in H46. by rewrite H46.
Qed.

Lemma parse_exponent_end (rest : string) :
  ends_number rest → parse_exponent rest = Some (0, rest).
Proof.
  destruct rest as [|c r]; [reflexivity|]. intros (_ & _ & H101 & H69).
  unfold parse_exponent. apply N.eqb_neq in H101, H69.
  by rewrite H101, H69.
Qed.

Lemma number_value_integer (neg : bool) (m : Z) :
  number_value neg m 0 0 = inject_Z (if neg then - m else m).
Proof.
  unfold number_value. cbn. rewrite Z.mul_1_r. by destruct neg.
Qed.

(** Reading the digits of a numeral without a leading zero, after an
    optional minus sign. *)
Lemma parse_number_digits (neg : bool) (d : Decimal.uint) (rest : string) :
  d ≠ Decimal.Nil → (∀ d', d ≠ Decimal.D0 d') → ends_number rest →
  parse_number ((if neg then "-" else EmptyString)
                ++ NilEmpty.string_of_uint d ++ rest)
  = Parsed (inject_Z (if neg then - uint_acc d 0 else uint_acc d 0)) rest.
Proof.
  intros Hnil Hzero Hrest.
  destruct d; [done | by destruct (Hzero d) | ..];
    cbn [NilEmpty.string_of_uint uint_acc]; rewrite append_cons;
    unfold parse_number;
    (destruct neg;
     [ change (strip_sign ("-" ++ String ?c ?s)) with (true, String c s)
     | change (strip_sign (EmptyString ++ String ?c ?s)) with (false, String c s) ]);
    cbv beta iota;
    match goal with
    | |- context [digit ?c] =>
        let v := eval vm_compute in (digit c) in change (digit c) with v
    end;
    cbv beta iota;
    match goal with
    | |- context [Z.eqb ?k 0] => change (Z.eqb k 0) with false
    end;
    cbv beta iota;
    rewrite digits_string_of_uint by assumption;
    cbv beta iota;
    rewrite parse_fraction_end, parse_exponent_end by assumption;
    rewrite number_value_integer; reflexivity.
Qed.

Lemma parse_number_toString (n : Z) (rest : string) :
  ends_number rest →
  parse_number (toString n ++ rest) = Parsed (inject_Z n) rest.
Proof.
  intros Hrest. destruct n as [|p|p].
  - change (toString 0 ++ rest) with (String "0" rest).
    unfold parse_number.
    change (strip_sign (String "0" rest)) with (false, String "0" rest).
    cbv beta iota. change (digit "0") with (Some 0). cbv beta iota.
    change (Z.eqb 0 0) with true. cbv beta iota.
    by rewrite parse_fraction_end, parse_exponent_end.
  - rewrite toString_pos.
    destruct (to_uint_leading p) as [Hnil Hzero].
    etransitivity; [exact (parse_number_digits false _ rest Hnil Hzero Hrest)|].
    cbv iota. by rewrite uint_acc_to_uint.
  - rewrite toString_neg.
    destruct (to_uint_leading p) as [Hnil Hzero].
    etransitivity; [exact (parse_number_digits true _ rest Hnil Hzero Hrest)|].
    cbv iota. by rewrite uint_acc_to_uint.
Qed.

Lemma parseInt_digit_start (c : ascii) (s : string) :
  digit c ≠ None →
  parseInt (String c s)
  = match digits 0 0 (String c s) with
    | (_, O, _) => None
    | (v, _, _) => Some v
    end.
Proof.
  destruct c as [[|] [|] [|] [|] [|] [|] [|] [|]]; intros H;
    first [reflexivity | exfalso; apply H; reflexivity].
Qed.

Lemma parseInt_minus (s : string) :
  parseInt (String "-" s)
  = match digits 0 0 s with
    | (_, O, _) => None
    | (v, _, _) => Some (- v)
    end.
Proof. reflexivity. Qed.

Lemma string_of_uint_head (d : Decimal.uint) :
  d ≠ Decimal.Nil →
  ∃ c s, NilEmpty.string_of_uint d = String c s ∧ digit c ≠ None
         ∧ Decimal.nb_digits d = S (String.length s).
Proof.
  assert (Hlen : ∀ u, Decimal.nb_digits u = String.length (NilEmpty.string_of_uint u)).
  { induction u; cbn; congruence. }
  destruct d; [done | ..]; intros _; eexists _, _;
    (split; [reflexivity|]); (split; [discriminate|]);
    cbn [Decimal.nb_digits]; by rewrite Hlen.
Qed.

Lemma parseInt_toString (n : Z) : parseInt (toString n) = Some n.
Proof.
  destruct n as [|p|p]; [reflexivity | ..].
  - rewrite toString_pos. destruct (to_uint_leading p) as [Hnil _].
    destruct (string_of_uint_head _ Hnil) as (c & s & Hs & Hc & Hn).
    rewrite Hs, (parseInt_digit_start c s Hc), <- Hs.
    rewrite <- (append_empty_r (NilEmpty.string_of_uint _)).
    rewrite digits_string_of_uint by exact I.
    rewrite Hn, uint_acc_to_uint. reflexivity.
  - rewrite toString_neg, parseInt_minus.
    destruct (to_uint_leading p) as [Hnil _].
    destruct (string_of_uint_head _ Hnil) as (c & s & Hs & Hc & Hn).
    rewrite <- (append_empty_r (NilEmpty.string_of_uint _)).
    rewrite digits_string_of_uint by exact I.
    rewrite Hn, uint_acc_to_uint. reflexivity.
Qed.

(** ** JSON: the favourites are read back as they were written *)

Lemma parse_value_number_start (c : ascii) (r : string) (fuel : nat) :
  (N.eqb (code c) 45 || (N.leb 48 (code c) && N.leb (code c) 57))%bool = true →
  parse_value (S fuel) (String c r) = parsed_map JNumber (parse_number (String c r)).
Proof.
  destruct c as [[|] [|] [|] [|] [|] [|] [|] [|]]; intros H;
    first [discriminate H | reflexivity].
Qed.

Lemma parse_value_array_start (c : ascii) (r : string) (fuel : nat) :
  (N.eqb (code c) 45 || (N.leb 48 (code c) && N.leb (code c) 57))%bool = true →
  parse_value (S fuel) (String "[" (String c r)) = parse_elements fuel (String c r) [].
Proof.
  destruct c as [[|] [|] [|] [|] [|] [|] [|] [|]]; intros H;
    first [discriminate H | reflexivity].
Qed.

Lemma parse_elements_step (fuel : nat) (s : string) (acc : list json) :
  parse_elements (S fuel) s acc
  = match parse_value fuel s with
    | Parsed v r =>
        match skip_ws r with
        | String c r' =>
            if N.eqb (code c) 44 then parse_elements fuel r' (v :: acc)
            else if N.eqb (code c) 93 then Parsed (JArray (rev (v :: acc))) r'
            else SyntaxError
        | EmptyString => SyntaxError
        end
    | SyntaxError => SyntaxError
    | OutOfFuel => OutOfFuel
    end.
Proof. reflexivity. Qed.

Lemma toString_head (n : Z) :
  ∃ c s, toString n = String c s
         ∧ (N.eqb (code c) 45 || (N.leb 48 (code c) && N.leb (code c) 57))%bool = true.
Proof.
  destruct n as [|p|p].
  - by eexists _, _.
  - rewrite toString_pos. destruct (to_uint_leading p) as [Hnil _].
    destruct (Pos.to_uint p); [done | ..]; by eexists _, _.
  - rewrite toString_neg. by eexists _, _.
Qed.

Lemma parse_value_toString (n : Z) (rest : string) (fuel : nat) :
  ends_number rest →
  parse_value (S fuel) (toString n ++ rest) = Parsed (JNumber (inject_Z n)) rest.
Proof.
  intros Hrest. destruct (toString_head n) as (c & s & Hs & Hc).
  pose proof (parse_number_toString n rest Hrest) as Hnum.
  rewrite Hs in *. rewrite append_cons in *.
  by rewrite parse_value_number_start, Hnum.
Qed.

Lemma parse_elements_numbers (l : list Z) (x : Z) (acc : list json) (fuel : nat) (rest : string) :
  (length l + 2 ≤ fuel)%nat →
  parse_elements fuel (String.concat "," (map toString (x :: l)) ++ "]" ++ rest) acc
  = Parsed (JArray (rev acc ++ map (λ n, JNumber (inject_Z n)) (x :: l))) rest.
Proof.
  revert x acc fuel. induction l as [|y l IH]; intros x acc fuel Hfuel.
  - destruct fuel as [|[|fuel]]; [simpl in Hfuel; lia.. |].
    rewrite parse_elements_step.
    change (String.concat "," (map toString [x])) with (toString x).
    rewrite parse_value_toString by (repeat split; discriminate).
    reflexivity.
  - destruct fuel as [|[|fuel]]; [simpl in Hfuel; lia.. |].
    rewrite parse_elements_step.
    change (String.concat "," (map toString (x :: y :: l)))
      with (toString x ++ "," ++ String.concat "," (map toString (y :: l))).
    rewrite !append_assoc.
    rewrite parse_value_toString by (repeat split; discriminate).
    change (skip_ws ("," ++ ?s)) with ("," ++ s).
    change (("," ++ ?s)%string) with (String "," s).
    cbv beta iota. change (N.eqb (code ",") 44) with true. cbv iota.
    rewrite IH by (simpl in *; lia).
    cbn [rev map]. by rewrite <- app_assoc.
Qed.

Lemma concat_toString_length (l : list Z) (x : Z) :
  (length l ≤ String.length (String.concat "," (map toString (x :: l))))%nat.
Proof.
  revert x. induction l as [|y l IH]; intros x; [simpl; lia|].
  change (String.concat "," (map toString (x :: y :: l)))
    with (toString x ++ "," ++ String.concat "," (map toString (y :: l))).
  rewrite !length_append. specialize (IH y). simpl in *. lia.
Qed.

Lemma JSON_parse_stringify (l : list Z) :
  JSON_parse (JSON_stringify l)
  = Normal (JArray (map (λ n, JNumber (inject_Z n)) l)).
Proof.
  destruct l as [|x l]; [reflexivity|].
  unfold JSON_parse, JSON_stringify.
  set (body := String.concat "," (map toString (x :: l))).
  change ("[" ++ body ++ "]") with (String "[" (body ++ "]")).
  assert (Hhead : ∃ c s, body ++ "]" = String c s
            ∧ (N.eqb (code c) 45 || (N.leb 48 (code c) && N.leb (code c) 57))%bool = true).
  { subst body. destruct (toString_head x) as (c & s & Hs & Hc).
    destruct l as [|y l].
    - change (String.concat "," (map toString [x])) with (toString x).
      rewrite Hs. by eexists _, _.
    - change (String.concat "," (map toString (x :: y :: l)))
        with (toString x ++ "," ++ String.concat "," (map toString (y :: l))).
      rewrite Hs. by eexists _, _. }
  destruct Hhead as (c & s & Hs & Hc).
  cbn [String.length]. rewrite Nat.mul_succ_r, Nat.add_succ_r.
  replace (2 * String.length (body ++ "]") + 2 + 2)%nat
    with (S (S (2 * String.length (body ++ "]") + 2))) by lia.
  rewrite Hs, parse_value_array_start, <- Hs by exact Hc.
  change (body ++ "]") with (body ++ "]" ++ EmptyString) at 2.
  subst body. rewrite parse_elements_numbers.
  - reflexivity.
  - rewrite length_append. pose proof (concat_toString_length l x). lia.
Qed.

Lemma Qred_inject_Z (n : Z) : Qred (inject_Z n) = inject_Z n.
Proof.
  unfold Qred, inject_Z.
  pose proof (Z.ggcd_gcd n 1) as Hg.
  pose proof (Z.ggcd_correct_divisors n 1) as Hd.
  destruct (Z.ggcd n 1) as [g [a b]]. cbn [fst snd] in *.
  rewrite Z.gcd_1_r in Hg. subst g. destruct Hd as [Ha Hb].
  assert (a = n) as -> by lia. assert (b = 1) as -> by lia. reflexivity.
Qed.

Lemma asPorts_numbers (l : list Z) :
  asPorts (JArray (map (λ n, JNumber (inject_Z n)) l)) = Some l.
Proof.
  cbn [asPorts]. induction l as [|x l IH]; [reflexivity|].
  cbn [map mapM]. rewrite IH. cbn [asInteger]. rewrite Qred_inject_Z.
  reflexivity.
Qed.

Lemma createStore_of_stringify (ls : gmap string string) (l : list Z) :
  ls !! "favoritePorts" = Some (JSON_stringify l) →
  createStore ls = Normal (inl (initialStore l)).
Proof.
  intros Hls. unfold createStore, loadFavoritePorts, storedFavorites.
  rewrite Hls. cbn [default].
  change (str_or (id (JSON_stringify l)) "[]") with (JSON_stringify l).
  by rewrite JSON_parse_stringify, asPorts_numbers.
Qed.

(** X14: every change of the favourites is written through.  For
    favourites and a port that are safe integers (every port is), after
    [addFavoritePort], [removeFavoritePort] or [toggleFavoritePort] the
    stored text is the JSON text of the new list, and a store created from
    that storage starts with exactly this list, in the same order. *)
Theorem favorites_survive_restart (w : World) (p : Z) :
  Forall safeInteger (favoritePorts (store w)) →
  safeInteger p →
  let persisted (w' : World) :=
    Forall safeInteger (favoritePorts (store w'))
    ∧ localStorage w' !! "favoritePorts"
      = Some (JSON_stringify (favoritePorts (store w')))
    ∧ createStore (localStorage w')
      = Normal (inl (initialStore (favoritePorts (store w')))) in
  persisted (exec (addFavoritePort p) w)
  ∧ persisted (exec (removeFavoritePort p) w)
  ∧ persisted (exec (toggleFavoritePort p) w).
Proof.
  intros Hsafe Hp persisted.
  assert (Hadd : persisted (exec (addFavoritePort p) w)).
  { assert (Hls : localStorage (exec (addFavoritePort p) w) !! "favoritePorts"
                  = Some (JSON_stringify (favoritePorts (store (exec (addFavoritePort p) w)))))
      by apply lookup_insert_eq.
    split; [|split; [exact Hls | by apply createStore_of_stringify]].
    rewrite favorites_after_add. apply Forall_app.
    split; [exact Hsafe | by apply Forall_singleton]. }
  assert (Hrem : persisted (exec (removeFavoritePort p) w)).
  { assert (Hls : localStorage (exec (removeFavoritePort p) w) !! "favoritePorts"
                  = Some (JSON_stringify (favoritePorts (store (exec (removeFavoritePort p) w)))))
      by apply lookup_insert_eq.
    split; [|split; [exact Hls | by apply createStore_of_stringify]].
    rewrite favorites_after_remove. rewrite Forall_forall in *.
    intros x Hx. apply elem_of_removed in Hx as [Hx _]. by apply Hsafe. }
  split; [exact Hadd|]. split; [exact Hrem|].
  unfold toggleFavoritePort. rewrite exec_bind. cbn [eval get fst exec snd].
  destruct (arr_includes p (favoritePorts (store w))); assumption.
Qed.

Lemma favorites_survive_restart_witness :
  createStore (localStorage (exec (toggleFavoritePort 8080) sampleWorld))
  = Normal (inl (initialStore [3000; 8080])).
Proof.
  destruct (favorites_survive_restart sampleWorld 8080) as (_ & _ & _ & _ & Hstart).
  - apply Forall_singleton. unfold safeInteger. simpl. lia.
  - unfold safeInteger. simpl. lia.
  - exact Hstart.
Defined.

(** X15: [parseInt] reads back every safe integer that [toString] prints.
    So a port typed as the decimal digits of a safe integer [n] is looked
    up, with one [find_port n] call, exactly when [n] is from 1 to 65535 and
    is rejected otherwise; and the custom field of the favourites dialog
    adds [n] exactly when it is in that range and not yet a favourite. *)
Theorem typed_port_number_is_read_back (w : World) (n : Z) :
  safeInteger n →
  parseInt (toString n) = Some n
  ∧ (∀ reply,
       (1 ≤ n ≤ 65535)%Z →
       remoteCalls (exec (PortSearchDialog.handleSearch reply (searchFor (toString n))) w)
       = (remoteCalls w ++ [find_port n])%list)
  ∧ (∀ reply,
       (n < 1 ∨ 65535 < n)%Z →
       exec (PortSearchDialog.handleSearch reply (searchFor (toString n))) w = w)
  ∧ favoritePorts (store (exec (FavoritesDialog.handleAddCustom (toString n)) w))
    = if (Z.leb 1 n && Z.leb n 65535
          && negb (arr_includes n (favoritePorts (store w))))%bool
      then (favoritePorts (store w) ++ [n])%list
      else favoritePorts (store w).
Proof.
  intros _.
  pose proof (parseInt_toString n) as Hp. split; [exact Hp|].
  split; [|split].
  - intros reply Hrange. unfold PortSearchDialog.handleSearch.
    cbn [PortSearchDialog.port searchFor]. rewrite Hp.
    replace (Z.ltb n 1 || Z.gtb n 65535)%bool with false.
    + rewrite exec_bind. destruct reply as [err|found]; [reflexivity|].
      destruct found; reflexivity.
    + symmetry. apply orb_false_iff. rewrite Z.ltb_ge, Z.gtb_ltb, Z.ltb_ge. lia.
  - intros reply Hrange. unfold PortSearchDialog.handleSearch.
    cbn [PortSearchDialog.port searchFor]. rewrite Hp.
    replace (Z.ltb n 1 || Z.gtb n 65535)%bool with true; [reflexivity|].
    symmetry. apply orb_true_iff. rewrite Z.ltb_lt, Z.gtb_gt. lia.
  - unfold FavoritesDialog.handleAddCustom. rewrite exec_bind.
    cbn [eval get fst exec snd]. rewrite Hp.
    destruct (Z.leb 1 n && Z.leb n 65535
              && negb (arr_includes n (favoritePorts (store w))))%bool;
      reflexivity.
Qed.

Lemma typed_port_number_is_read_back_witness :
  remoteCalls (exec (PortSearchDialog.handleSearch (inr []) (searchFor (toString 8080)))
                 sampleWorld)
  = [find_port 8080]
  ∧ exec (PortSearchDialog.handleSearch (inr []) (searchFor (toString 70000))) sampleWorld
    = sampleWorld.
Proof.
  assert (Hsafe : ∀ n, (0 ≤ n ≤ 70000)%Z → safeInteger n)
    by (intros n Hn; unfold safeInteger; lia).
  destruct (typed_port_number_is_read_back sampleWorld 8080) as (_ & Hin & _);
    [apply Hsafe; lia|].
  destruct (typed_port_number_is_read_back sampleWorld 70000) as (_ & _ & Hout & _);
    [apply Hsafe; lia|].
  split; [apply Hin; lia | apply Hout; lia].
Defined.

(** ** The view pipeline: what is shown, and in which order *)

Lemma elem_of_js_filter {A} (f : A → bool) (l : list A) (x : A) :
  x ∈ List.filter f l ↔ x ∈ l ∧ f x = true.
Proof. by rewrite !list_elem_of_In, filter_In. Qed.

Lemma js_filter_sublist {A} (f : A → bool) (l : list A) :
  sublist (List.filter f l) l.
Proof.
  induction l as [|x l IH]; [constructor|]. simpl.
  destruct (f x); by constructor.
Qed.

Lemma some_bool_decide {A} (P : A → Prop) `{∀ x, Decision (P x)} (l : list A) :
  some (λ x, bool_decide (P x)) l = true ↔ ∃ x, x ∈ l ∧ P x.
Proof.
  unfold some. rewrite existsb_exists. split.
  - intros (x & Hin & Hx). exists x. split; [by apply list_elem_of_In|].
    by apply bool_decide_eq_true in Hx.
  - intros (x & Hin & Hx). exists x. split; [by apply list_elem_of_In|].
    by apply bool_decide_eq_true.
Qed.

(** X16: the filter keeps the processes of the snapshot in their order and
    drops the others: a process is shown exactly when it is in the snapshot
    and passes every active clause (the search text when it is not empty, a
    binding with the selected protocol, a binding with the selected state).
    With no active clause the whole snapshot is shown. *)
Theorem filter_keeps_matching_processes (toLowerCase : string → string) (ps : list ProcessNode.t) (fo : FilterOptions.t) :
  let shown := filteredProcesses toLowerCase ps fo in
  sublist shown ps
  ∧ (∀ p,
       p ∈ shown ↔
       p ∈ ps
       ∧ (FilterOptions.searchQuery fo = EmptyString
          ∨ matchesQuery toLowerCase (toLowerCase (FilterOptions.searchQuery fo)) p = true)
       ∧ match FilterOptions.selectedProtocol fo with
         | ProtocolAll => True
         | ProtocolIs proto =>
             ∃ port, port ∈ ProcessNode.ports p ∧ PortEntry.protocol port = proto
         end
       ∧ match FilterOptions.selectedState fo with
         | StateAll => True
         | StateIs st =>
             ∃ port, port ∈ ProcessNode.ports p ∧ PortEntry.state port = st
         end)
  ∧ (FilterOptions.searchQuery fo = EmptyString →
     FilterOptions.selectedProtocol fo = ProtocolAll →
     FilterOptions.selectedState fo = StateAll →
     shown = ps).
Proof.
  intros shown. subst shown. unfold filteredProcesses.
  destruct fo as [showAll query proto st].
  cbn [FilterOptions.searchQuery FilterOptions.selectedProtocol
       FilterOptions.selectedState].
  split; [|split].
  - destruct st; [|etransitivity; [apply js_filter_sublist|]];
      (destruct proto; [|etransitivity; [apply js_filter_sublist|]]);
      (destruct query; [reflexivity | apply js_filter_sublist]).
  - intros p.
    destruct st; rewrite ?elem_of_js_filter, ?some_bool_decide;
      (destruct proto; rewrite ?elem_of_js_filter, ?some_bool_decide);
      (destruct query; rewrite ?elem_of_js_filter); intuition discriminate.
  - intros -> -> ->. reflexivity.
Qed.

Lemma filter_keeps_matching_processes_witness :
  filteredProcesses lowerCase [launchd; devServer; sshd] noFilter
  = [launchd; devServer; sshd]
  ∧ (devServer ∈ filteredProcesses lowerCase [launchd; devServer; sshd]
                  (FilterOptions.mk false "NODE" (ProtocolIs tcp) StateAll)).
Proof.
  destruct (filter_keeps_matching_processes lowerCase [launchd; devServer; sshd] noFilter)
    as (_ & _ & Hall).
  destruct (filter_keeps_matching_processes lowerCase [launchd; devServer; sshd]
              (FilterOptions.mk false "NODE" (ProtocolIs tcp) StateAll))
    as (_ & Hiff & _).
  split; [by apply Hall|].
  apply Hiff. split; [apply elem_of_cons; right; apply elem_of_cons; by left|].
  split; [right; reflexivity|]. split; [|exact I].
  exists (portOf tcp 3000). split; [apply elem_of_cons; by left | reflexivity].
Defined.

Section Ordered.
Context {A : Type} (cmp : A → A → Q).

Hypothesis cmp_total : ∀ x y, (cmp x y <= 0)%Q ∨ (cmp y x <= 0)%Q.
Hypothesis cmp_trans :
  ∀ x y z, (cmp x y <= 0)%Q → (cmp y z <= 0)%Q → (cmp x z <= 0)%Q.

Lemma sort_insert_sorted (x : A) (l : list A) :
  StronglySorted (λ a b, (cmp a b <= 0)%Q) l →
  StronglySorted (λ a b, (cmp a b <= 0)%Q) (sort_insert cmp x l).
Proof.
  induction 1 as [|y rest Hrest IH Hy]; simpl.
  - repeat constructor.
  - destruct (Qle_bool (cmp x y) 0) eqn:Hle.
    + apply Qle_bool_iff in Hle.
      constructor; [by constructor|].
      constructor; [exact Hle|].
      eapply Forall_impl; [exact Hy|]. intros z Hz. by apply (cmp_trans x y z).
    + assert (Hyx : (cmp y x <= 0)%Q).
      { destruct (cmp_total x y) as [Hxy|Hyx]; [|exact Hyx].
        apply Qle_bool_iff in Hxy. congruence. }
      constructor; [exact IH|].
      rewrite sort_insert_Permutation. by constructor.
Qed.

Lemma array_sort_sorted (l : list A) :
  StronglySorted (λ a b, (cmp a b <= 0)%Q) (array_sort cmp l).
Proof.
  induction l as [|x l IH]; simpl; [constructor|].
  by apply sort_insert_sorted.
Qed.

Lemma array_sort_of_sorted (l : list A) :
  StronglySorted (λ a b, (cmp a b <= 0)%Q) l → array_sort cmp l = l.
Proof.
  induction 1 as [|x rest Hrest IH Hx]; [reflexivity|].
  simpl. rewrite IH. destruct rest as [|y rest]; [reflexivity|]. simpl.
  apply Forall_cons in Hx as [Hxy _].
  apply Qle_bool_iff in Hxy. by rewrite Hxy.
Qed.
End Ordered.

Lemma sorted_orderedBy {A} (cmp : A → A → Q) (l : list A) :
  StronglySorted (λ a b, (cmp a b <= 0)%Q) l → orderedBy cmp l.
Proof.
  induction 1 as [|x rest Hrest IH Hx]; intros i j a b Hlt Hi Hj.
  - discriminate Hi.
  - destruct j as [|j]; [lia|]. cbn in Hj. destruct i as [|i]; cbn in Hi.
    + injection Hi as <-. rewrite Forall_lookup in Hx. by apply (Hx j).
    + apply (IH i j); [lia | assumption..].
Qed.

Lemma inject_Z_nonpos (z : Z) : (inject_Z z <= 0)%Q ↔ (z ≤ 0)%Z.
Proof. unfold Qle. simpl. lia. Qed.

Lemma inject_Z_nonneg (z : Z) : (0 <= inject_Z z)%Q ↔ (0 ≤ z)%Z.
Proof. unfold Qle. simpl. lia. Qed.

Lemma consistentCompare_flip (localeCompare : string → string → Z) (a b : string) :
  consistentCompare localeCompare →
  (localeCompare a b ≤ 0 ↔ 0 ≤ localeCompare b a)%Z.
Proof.
  intros [Hsgn _]. specialize (Hsgn a b).
  destruct (Z.sgn_spec (localeCompare a b)) as [[? ?]|[[? ?]|[? ?]]],
    (Z.sgn_spec (localeCompare b a)) as [[? ?]|[[? ?]|[? ?]]]; lia.
Qed.

Ltac integer_key :=
  split; [|split]; intros;
  rewrite ?inject_Z_nonpos, ?inject_Z_nonneg in *; lia.

Ltac string_key Hflip Htrans :=
  split; [|split];
  [ intros a b; rewrite inject_Z_nonpos, inject_Z_nonneg; apply Hflip
  | intros a b; rewrite !inject_Z_nonpos;
    match goal with
    | |- (?lc ?x ?y ≤ 0 ∨ _)%Z =>
        pose proof (Hflip x y); pose proof (Hflip y x); lia
    end
  | intros a b c; rewrite !inject_Z_nonpos; apply Htrans ].

(** The comparison of two processes by a field, seen from both sides. *)
Lemma comparison_consistent (localeCompare : string → string → Z) (field : SortField) :
  consistentCompare localeCompare →
  (∀ a b, (comparison localeCompare field a b <= 0
           ↔ 0 <= comparison localeCompare field b a)%Q)
  ∧ (∀ a b, (comparison localeCompare field a b <= 0
             ∨ comparison localeCompare field b a <= 0)%Q)
  ∧ ∀ a b c,
      (comparison localeCompare field a b <= 0)%Q →
      (comparison localeCompare field b c <= 0)%Q →
      (comparison localeCompare field a c <= 0)%Q.
Proof.
  intros Hc. pose proof (λ a b, consistentCompare_flip localeCompare a b Hc) as Hflip.
  destruct Hc as [_ Htrans].
  destruct field; cbn [comparison];
    [ integer_key | string_key Hflip Htrans | integer_key | integer_key
    | split; [|split]; intros; lra
    | string_key Hflip Htrans ].
Qed.

Lemma compareProcesses_le (localeCompare : string → string → Z) (favs : list Z) (so : SortOptions.t) (a b : ProcessNode.t) :
  (compareProcesses localeCompare favs so a b <= 0)%Q
  ↔ (hasFavoritePort favs a = true ∧ hasFavoritePort favs b = false)
    ∨ (hasFavoritePort favs a = hasFavoritePort favs b
       ∧ match SortOptions.direction so with
         | asc => (comparison localeCompare (SortOptions.field so) a b <= 0)%Q
         | desc => (0 <= comparison localeCompare (SortOptions.field so) a b)%Q
         end).
Proof.
  unfold compareProcesses.
  destruct (hasFavoritePort favs a), (hasFavoritePort favs b); cbn [Bool.eqb negb].
  - destruct (SortOptions.direction so); split;
      [intros; right; split; [reflexivity | lra] | intros [[? ?]|[_ ?]]; [discriminate | lra]
      |intros; right; split; [reflexivity | lra] | intros [[? ?]|[_ ?]]; [discriminate | lra]].
  - split; [intros _; by left | intros _; lra].
  - split; [intros; lra | intros [[? ?]|[? _]]; discriminate].
  - destruct (SortOptions.direction so); split;
      [intros; right; split; [reflexivity | lra] | intros [[? ?]|[_ ?]]; [discriminate | lra]
      |intros; right; split; [reflexivity | lra] | intros [[? ?]|[_ ?]]; [discriminate | lra]].
Qed.

Lemma compareProcesses_consistent (localeCompare : string → string → Z) (favs : list Z) (so : SortOptions.t) :
  consistentCompare localeCompare →
  (∀ a b, (compareProcesses localeCompare favs so a b <= 0
           ∨ compareProcesses localeCompare favs so b a <= 0)%Q)
  ∧ ∀ a b c,
      (compareProcesses localeCompare favs so a b <= 0)%Q →
      (compareProcesses localeCompare favs so b c <= 0)%Q →
      (compareProcesses localeCompare favs so a c <= 0)%Q.
Proof.
  intros Hc.
  destruct (comparison_consistent localeCompare (SortOptions.field so) Hc)
    as (Hflip & Htot & Htrans).
  split.
  - intros a b. rewrite !compareProcesses_le.
    destruct (hasFavoritePort favs a), (hasFavoritePort favs b);
      [| by left; left | by right; left |].
    all: destruct (SortOptions.direction so);
      destruct (Htot a b) as [H|H];
      first [ by left; right | by right; right
            | apply Hflip in H; first [by left; right | by right; right] ].
  - intros a b c. rewrite !compareProcesses_le.
    intros [[Ha Hb]|[Hab Dab]] [[Hb' Hc']|[Hbc Dbc]].
    + congruence.
    + left. split; congruence.
    + left. split; congruence.
    + right. split; [congruence|].
      destruct (SortOptions.direction so).
      * by apply (Htrans a b c).
      * apply Hflip. apply Hflip in Dab, Dbc. by apply (Htrans c b a).
Qed.

Lemma string_compare_trans (a b c : string) :
  String.compare a b ≠ Gt → String.compare b c ≠ Gt → String.compare a c ≠ Gt.
Proof.
  revert b c. induction a as [|x a IH]; intros [|y b] [|z c]; cbn; try done.
  unfold Ascii.compare.
  destruct (N.compare_spec (N_of_ascii x) (N_of_ascii y)),
    (N.compare_spec (N_of_ascii y) (N_of_ascii z)),
    (N.compare_spec (N_of_ascii x) (N_of_ascii z));
    try lia; try (intros; discriminate);
    try (intros Hab; exfalso; by apply Hab);
    try (intros _ Hbc; exfalso; by apply Hbc).
  apply IH.
Qed.

Lemma codeUnitCompare_consistent : consistentCompare codeUnitCompare.
Proof.
  unfold consistentCompare, codeUnitCompare. split.
  - intros a b. rewrite (String.compare_antisym b a).
    by destruct (String.compare a b).
  - intros a b c Hab Hbc.
    pose proof (string_compare_trans a b c) as Ht.
    destruct (String.compare a b), (String.compare b c), (String.compare a c);
      cbn in *; try lia;
      (exfalso; apply Ht; [discriminate | discriminate | reflexivity]).
Qed.

(** X17: with a consistent [localeCompare], the sequence that the table
    shows is ordered by the comparator of the table: no process stands after
    one that should come after it.  Sorting the shown sequence again changes
    nothing.  For the field [pid], two shown processes of the same favourite
    status stand in the order of their pids, ascending or descending as
    selected. *)
Theorem table_ordered_by_sort_key (toLowerCase : string → string) (localeCompare : string → string → Z) (ps : list ProcessNode.t) (fo : FilterOptions.t) (so : SortOptions.t) (favs : list Z) :
  consistentCompare localeCompare →
  let shown := sortedProcesses toLowerCase localeCompare ps fo so favs in
  orderedBy (compareProcesses localeCompare favs so) shown
  ∧ array_sort (compareProcesses localeCompare favs so) shown = shown
  ∧ (SortOptions.field so = field_pid →
     ∀ i j a b,
       (i < j)%nat → shown !! i = Some a → shown !! j = Some b →
       hasFavoritePort favs a = hasFavoritePort favs b →
       match SortOptions.direction so with
       | asc => (ProcessNode.pid a ≤ ProcessNode.pid b)%Z
       | desc => (ProcessNode.pid b ≤ ProcessNode.pid a)%Z
       end).
Proof.
  intros Hc shown. subst shown. unfold sortedProcesses.
  destruct (compareProcesses_consistent localeCompare favs so Hc) as [Htot Htrans].
  pose proof (array_sort_sorted _ Htot Htrans (filteredProcesses toLowerCase ps fo))
    as Hsorted.
  pose proof (sorted_orderedBy _ _ Hsorted) as Hord.
  split; [exact Hord|]. split; [by apply array_sort_of_sorted|].
  intros Hfield i j a b Hlt Hi Hj Hfav.
  specialize (Hord i j a b Hlt Hi Hj).
  apply compareProcesses_le in Hord as [[Ha Hb]|[_ Hcmp]]; [congruence|].
  rewrite Hfield in Hcmp. cbn [comparison] in Hcmp.
  destruct (SortOptions.direction so); cbv iota in Hcmp |- *;
    [apply (proj1 (inject_Z_nonpos _)) in Hcmp
    | apply (proj1 (inject_Z_nonneg _)) in Hcmp]; lia.
Qed.

Lemma table_ordered_by_sort_key_witness :
  (ProcessNode.pid launchd ≤ ProcessNode.pid sshd)%Z.
Proof.
  destruct (table_ordered_by_sort_key lowerCase codeUnitCompare
              [sshd; devServer; launchd] noFilter (SortOptions.mk field_pid asc)
              [22] codeUnitCompare_consistent) as (_ & _ & Hpid).
  apply (Hpid eq_refl 0%nat 1%nat launchd sshd); [lia | reflexivity..].
Defined.

(** ** Container actions and row handlers *)

Lemma find_first_match {A} (f : A → bool) (before after : list A) (p : A) :
  Forall (λ q, f q = false) before → f p = true →
  find f (before ++ p :: after) = Some p.
Proof.
  unfold find. induction 1 as [|q before Hq _ IH]; intros Hp; simpl.
  - by rewrite Hp.
  - rewrite Hq. by apply IH.
Qed.

Lemma find_no_match {A} (f : A → bool) (l : list A) :
  Forall (λ q, f q = false) l → find f l = None.
Proof.
  unfold find. induction 1 as [|q l Hq _ IH]; simpl; [reflexivity|].
  by rewrite Hq.
Qed.

Lemma slice0_length (n : nat) (s : string) : (String.length (slice0 n s) ≤ n)%nat.
Proof.
  unfold slice0. revert s. induction n as [|n IH]; intros [|c s]; simpl; try lia.
  specialize (IH s). lia.
Qed.

(** X18: the history entry of a container action.  Only [stop] is recorded
    as a container stop; [kill], [remove] and [restart] are all recorded as
    a container kill.  The entry is named after the container of the first
    process of the snapshot with that container id; when no process has it,
    the entry is named by the first 12 characters of the id and carries pid
    0 and no port. *)
Theorem container_action_audit_entry (w : World) (reply : AppError.t + KillResult.t) (st : Stamp) (containerId : string) (action : ContainerAction) :
  ∃ entry,
    head (history (store (exec (containerAction reply st containerId action) w)))
    = Some entry
    ∧ (HistoryEntry.action entry = act_container_stop ↔ action = stop)
    ∧ (action ≠ stop → HistoryEntry.action entry = act_container_kill)
    ∧ (Forall (λ q, hasContainerId containerId q = false) (processes (store w)) →
       HistoryEntry.processName entry = slice0 12 containerId
       ∧ (String.length (HistoryEntry.processName entry) ≤ 12)%nat
       ∧ HistoryEntry.pid entry = 0
       ∧ HistoryEntry.port entry = None)
    ∧ ∀ before p after c,
        processes (store w) = (before ++ p :: after)%list →
        Forall (λ q, hasContainerId containerId q = false) before →
        ProcessNode.container p = Some c →
        ContainerInfo.id c = containerId →
        ContainerInfo.name c ≠ EmptyString →
        HistoryEntry.processName entry = ContainerInfo.name c
        ∧ HistoryEntry.pid entry = ProcessNode.pid p.
Proof.
  set (process := find (hasContainerId containerId) (processes (store w))).
  exists (makeEntry st (containerDraft process containerId action reply)).
  split.
  { subst process. destruct reply as [err|[[] msg elev]]; reflexivity. }
  cbn [makeEntry containerDraft HistoryEntry.action HistoryEntry.processName
       HistoryEntry.pid HistoryEntry.port HistoryEntry.d_action
       HistoryEntry.d_processName HistoryEntry.d_pid HistoryEntry.d_port].
  split; [destruct action; cbn; split; congruence|].
  split; [destruct action; cbn; congruence|].
  split.
  - intros Hnone. subst process. rewrite (find_no_match _ _ Hnone).
    cbn. repeat split. apply slice0_length.
  - intros before p after c Hps Hbefore Hcont Hid Hname. subst process.
    rewrite Hps, (find_first_match _ before after p Hbefore).
    + unfold containerLabel. cbn. rewrite Hcont. cbn.
      split.
      * destruct (ContainerInfo.name c); [done | reflexivity].
      * unfold num_or. by destruct (Z.eqb_spec (ProcessNode.pid p) 0).
    + unfold hasContainerId. rewrite Hcont. by apply String.eqb_eq.
Qed.

Lemma container_action_audit_entry_witness :
  ∃ entry,
    head (history (store (exec (containerAction (inr terminated) sampleStamp
                                  "0123456789abcdef" restart) sampleWorld)))
    = Some entry
    ∧ HistoryEntry.action entry = act_container_kill
    ∧ HistoryEntry.processName entry = "0123456789ab".
Proof.
  destruct (container_action_audit_entry sampleWorld (inr terminated) sampleStamp
              "0123456789abcdef" restart)
    as (entry & Hhead & _ & Hkill & Hnone & _).
  exists entry. split; [exact Hhead|]. split; [apply Hkill; discriminate|].
  apply Hnone. repeat constructor.
Defined.

(** X19: the kill and container buttons of a process row.  A container
    action on a process without a container does nothing.  Otherwise the
    handler issues the one remote call for this process or its container,
    and shows an alert exactly when the result is no success, with the
    message of the result. *)
Theorem row_handlers_alert_on_failure (w : World) (reply : AppError.t + KillResult.t) (st : Stamp) (process : ProcessNode.t) :
  (∀ force,
     let result := eval (killProcess reply st (ProcessNode.pid process) force) w in
     eval (ProcessRow.handleKill reply st process force) w
     = (if KillResult.success result then None else Some (KillResult.message result))
     ∧ remoteCalls (exec (ProcessRow.handleKill reply st process force) w)
       = (remoteCalls w ++ [kill_process (ProcessNode.pid process) force])%list)
  ∧ (∀ action,
       ProcessNode.container process = None →
       ProcessRow.handleContainerAction reply st process action w = (None, w))
  ∧ ∀ action c,
      ProcessNode.container process = Some c →
      let result := eval (containerAction reply st (ContainerInfo.id c) action) w in
      eval (ProcessRow.handleContainerAction reply st process action) w
      = (if KillResult.success result then None else Some (KillResult.message result))
      ∧ remoteCalls (exec (ProcessRow.handleContainerAction reply st process action) w)
        = (remoteCalls w ++ [container_action (ContainerInfo.id c) action])%list.
Proof.
  split; [|split].
  - intros force result. subst result. unfold ProcessRow.handleKill.
    rewrite eval_bind, exec_bind. split; [reflexivity|].
    rewrite exec_ret. apply killProcess_calls.
  - intros action Hnone. unfold ProcessRow.handleContainerAction.
    by rewrite Hnone.
  - intros action c Hc result. subst result.
    unfold ProcessRow.handleContainerAction. rewrite Hc.
    rewrite eval_bind, exec_bind. split; [reflexivity|].
    rewrite exec_ret. destruct reply as [err|[[] msg elev]]; reflexivity.
Qed.

Lemma row_handlers_alert_on_failure_witness :
  ProcessRow.handleContainerAction (inr terminated) sampleStamp devServer stop sampleWorld
  = (None, sampleWorld).
Proof.
  destruct (row_handlers_alert_on_failure sampleWorld (inr terminated) sampleStamp devServer)
    as (_ & Hnone & _).
  apply Hnone. reflexivity.
Defined.
